(** * Ghost-leg ladder generator and tracer: [src/lib/services/ladder.ts]

    A shallow embedding of the ladder service and the properties its
    specification states about it.

    Conventions of the embedding.
    - Column numbers, row numbers and array indices are [nat]; the only
      JavaScript number that may be negative on entry, [playerCount], is a [Z].
    - [Math.random()] is an explicit source [rnd : nat -> Q]: the [k]-th call
      returns [rnd k].  ECMAScript promises [0 <= rnd k < 1]; that promise is
      the predicate [rnd_ok], assumed by the theorems and never by the
      definitions.  Products of a draw are taken in exact rational arithmetic.
    - Geometry ([cellWidth], [cellHeight], [startY], way points) is in
      IEEE-754 doubles, as JavaScript numbers are: Rocq's primitive [float],
      with its [+], [*] and [/], and [=?] for [===].  A row or column number
      enters the arithmetic through [numberOf].
    - A JavaScript exception is a [Throw]; code that draws random numbers lives
      in the state-and-error monad [Rand], whose state is the number of draws
      made so far.
    - [boolean[][]] is [list (list bool)].  Reading a row past its end yields
      [undefined], which is falsy: [truthy None = false].  Reading a property
      of a missing row is a [TypeError]. *)

From Stdlib Require Import QArith Qround Lqa.
From Stdlib Require Import PrimFloat.
From stdpp Require Import base list.

Local Open Scope nat_scope.

(** ** Exceptions and the random-source monad *)

Inductive JsError : Type :=
  | RangeError
  | TypeError.

Inductive Outcome (A : Type) : Type :=
  | Ok (a : A)
  | Throw (e : JsError).
Arguments Ok {A} a.
Arguments Throw {A} e.

Definition obind {A B : Type} (o : Outcome A) (f : A -> Outcome B) : Outcome B :=
  match o with
  | Ok a => f a
  | Throw e => Throw e
  end.

(** A computation that may call [Math.random()]: it receives the number of
    draws made so far and returns its value with the new count. *)
Definition Rand (A : Type) : Type := nat -> Outcome (A * nat).

Definition ret {A : Type} (a : A) : Rand A := fun k => Ok (a, k).

Definition bind {A B : Type} (m : Rand A) (f : A -> Rand B) : Rand B :=
  fun k => match m k with
           | Ok (a, k') => f a k'
           | Throw e => Throw e
           end.

Definition lift {A : Type} (o : Outcome A) : Rand A :=
  fun k => match o with
           | Ok a => Ok (a, k)
           | Throw e => Throw e
           end.

Declare Scope rand_scope.
Delimit Scope rand_scope with rand.
Notation "'let*' x ':=' m 'in' f" := (bind m (fun x => f))
  (at level 10, x name, m at level 100, f at level 200) : rand_scope.
Notation "'let?' x ':=' o 'in' f" := (obind o (fun x => f))
  (at level 10, x name, o at level 100, f at level 200) : rand_scope.
Local Open Scope rand_scope.

(** [for (let i = lo; i < hi; i++) s = body(i, s)] *)
Fixpoint forFrom {S : Type} (trips i : nat) (body : nat -> S -> Rand S) (s : S)
  : Rand S :=
  match trips with
  | 0 => ret s
  | Datatypes.S trips' => let* s' := body i s in forFrom trips' (i + 1) body s'
  end.

Definition forRange {S : Type} (lo hi : nat) (body : nat -> S -> Rand S) (s : S)
  : Rand S :=
  forFrom (hi - lo) lo body s.

(** The same loop for code that cannot draw. *)
Fixpoint forFromO {S : Type} (trips i : nat) (body : nat -> S -> Outcome S) (s : S)
  : Outcome S :=
  match trips with
  | 0 => Ok s
  | Datatypes.S trips' => let? s' := body i s in forFromO trips' (i + 1) body s'
  end.

(** ** Arrays *)

(** Truthiness of [row[i]]. *)
Definition truthy (v : option bool) : bool :=
  match v with
  | Some true => true
  | _ => false
  end.

(** [row[i] = v] on a boolean row.  JavaScript extends the array when [i] is
    past its end; the holes this would leave read as [undefined] and are
    recorded as [false], which is as falsy. *)
Definition jsSet (i : nat) (v : bool) (row : list bool) : list bool :=
  if decide (i < length row) then <[i:=v]> row
  else row ++ replicate (i - length row) false ++ [v].

Abbreviation Grid := (list (list bool)).

(** [rungs[row][col]] as a condition. *)
Definition getRung (rungs : Grid) (row col : nat) : Outcome bool :=
  match rungs !! row with
  | Some r => Ok (truthy (r !! col))
  | None => Throw TypeError
  end.

(** [rungs[row][col] = true] *)
Definition setRung (row col : nat) (rungs : Grid) : Outcome Grid :=
  match rungs !! row with
  | Some r => Ok (<[row := jsSet col true r]> rungs)
  | None => Throw TypeError
  end.

(** [[arr[i], arr[j]] = [arr[j], arr[i]]] on an array of numbers.  Both reads
    come first.  The model is for [i] and [j] inside the array, where every
    call has them: [j < i < n] in the shuffle when the draws are in [0, 1),
    [pos - 1 < pos < n] in the selection loop. *)
Definition swapAt (i j : nat) (arr : list nat) : list nat :=
  let vj := arr !!! j in
  let vi := arr !!! i in
  <[j := vi]> (<[i := vj]> arr).

(** [arr.indexOf(v)]; [None] stands for [-1]. *)
Definition indexOf (v : nat) (arr : list nat) : option nat :=
  fst <$> list_find (fun x => x = v) arr.

(** ** Data types of the service *)

Record LadderConfig : Type := {
  playerCount : Z;
  excludeSelf : bool
}.

Record LadderData : Type := {
  rungs : Grid;
  rowCount : nat
}.

Module PathPoint.
Record t : Type := mk { x : float; y : float }.
End PathPoint.

Record TraceResult : Type := {
  path : list PathPoint.t;
  finalColumn : nat
}.

(** ** The generator *)

Section Generator.

(** The values [Math.random()] returns, in call order. *)
Variable rnd : nat -> Q.

Definition random : Rand Q := fun k => Ok (rnd k, S k).

(** [Math.floor(Math.random() * i)] *)
Definition randomBelow (i : nat) : Rand nat :=
  let* r := random in ret (Z.to_nat (Qfloor (r * inject_Z (Z.of_nat i)))).

(** [Math.random() > 0.4] *)
Definition randomAbove04 : Rand bool :=
  let* r := random in ret (negb (Qle_bool r (4 # 10))).

(** [for (let i = n - 1; i > 0; i--)] of [generateDerangement], entered at [i]. *)
Fixpoint derangementLoop (i : nat) (arr : list nat) : Rand (list nat) :=
  match i with
  | 0 => ret arr
  | S i' => let* j := randomBelow i in derangementLoop i' (swapAt i j arr)
  end.

Definition generateDerangement (n : nat) : Rand (list nat) :=
  derangementLoop (n - 1) (seq 0 n).

(** One row of [simulatePermutation]: the column reached from [col]. *)
Definition stepCol (n : nat) (row : list bool) (col : nat) : nat :=
  if bool_decide (0 < col) && truthy (row !! (col - 1)) then col - 1
  else if bool_decide (col < n - 1) && truthy (row !! col) then col + 1
  else col.

Definition simulateFrom (rungs : Grid) (n start : nat) : nat :=
  fold_left (fun col row => stepCol n row col) rungs start.

Definition simulatePermutation (rungs : Grid) (n : nat) : list nat :=
  simulateFrom rungs n <$> seq 0 n.

(** Body of the chaos loop at ([row], [col]).  [Math.random()] is only
    called when the slot to the left is free ([&&] short-circuits). *)
Definition chaosCell (row col : nat) (rungs : Grid) : Rand Grid :=
  let* prevHasRung :=
    (if decide (0 < col) then lift (getRung rungs row (col - 1)) else ret false) in
  if prevHasRung then ret rungs
  else
    let* b := randomAbove04 in
    if b then lift (setRung row col rungs) else ret rungs.

(** [currentInverse[currentPerm[i]] = i] for [i] in [0, n), from an array of
    zeros; also used for [correctionInverse].  Both arrays inverted hold
    columns below [n], so that every write is inside the array. *)
Definition inverseOf (n : nat) (perm : list nat) : list nat :=
  fold_left (fun inv i => <[perm !!! i := i]> inv) (seq 0 n) (replicate n 0).

(** [correction[i] = targetPerm[currentInverse[i]]] *)
Definition composeCorrection (n : nat) (targetPerm currentInverse : list nat)
  : list nat :=
  fold_left (fun corr i => <[i := targetPerm !!! (currentInverse !!! i)]> corr)
            (seq 0 n) (replicate n 0).

(** [while (pos > i) { swap state[pos], state[pos-1]; push(pos-1); pos-- }]
    on the pair ([state], [correctionSwaps]). *)
Fixpoint bubble (i pos : nat) (st : list nat * list nat) : list nat * list nat :=
  match pos with
  | 0 => st
  | S p =>
      if decide (i < pos) then bubble i p (swapAt pos p st.1, st.2 ++ [p])
      else st
  end.

(** Body of the selection loop: bring [correctionInverse[i]] to slot [i]. *)
Definition selectStep (correctionInverse : list nat) (st : list nat * list nat) (i : nat)
  : list nat * list nat :=
  match indexOf (correctionInverse !!! i) st.1 with
  | Some pos => bubble i pos st
  | None => st
  end.

Definition correctionSwapsOf (n : nat) (correctionInverse : list nat) : list nat :=
  (fold_left (selectStep correctionInverse) (seq 0 n) (seq 0 n, [])).2.

(** [for (const swapPos of correctionSwaps)] with its [break]; returns the
    final [correctionRow] with the grid. *)
Fixpoint placeCorrections (rowCount : nat) (swaps : list nat) (correctionRow : nat)
    (rungs : Grid) : Outcome (nat * Grid) :=
  match swaps with
  | [] => Ok (correctionRow, rungs)
  | swapPos :: rest =>
      if decide (rowCount <= correctionRow) then Ok (correctionRow, rungs)
      else
        let? rungs' := setRung correctionRow swapPos rungs in
        placeCorrections rowCount rest (correctionRow + 1) rungs'
  end.

(** Body of the filler loop at [row]. *)
Definition fillerStep (n rowCount row : nat) (rungs : Grid) : Rand Grid :=
  let* col := randomBelow (n - 1) in
  let* prevHasRung :=
    (if decide (0 < col) then lift (getRung rungs row (col - 1)) else ret false) in
  let* nextHasRung :=
    (if decide (col < n - 2) then lift (getRung rungs row (col + 1)) else ret false) in
  if negb prevHasRung && negb nextHasRung then
    let* rungs1 := lift (setRung row col rungs) in
    if decide (row + 1 < rowCount) then lift (setRung (row + 1) col rungs1)
    else ret rungs1
  else ret rungs.

(** [for (let row = correctionRow; row < rowCount - 1; row += 2)], entered at
    [row].  [fuel] bounds the number of trips; the [rowCount] units the
    caller passes are never used up (lemmas [fillerLoop_fuel] and
    [fillerLoop_enough]). *)
Fixpoint fillerLoop (fuel n rowCount row : nat) (rungs : Grid) : Rand Grid :=
  match fuel with
  | 0 => ret rungs
  | S fuel' =>
      if decide (row < rowCount - 1) then
        let* rungs' := fillerStep n rowCount row rungs in
        fillerLoop fuel' n rowCount (row + 2) rungs'
      else ret rungs
  end.

(** [Array.from({ length: rowCount }, () => Array(n - 1).fill(false))]:
    [Array(-1)] throws, and the callback runs once per row. *)
Definition emptyGrid (n rowCount : nat) : Outcome Grid :=
  if decide (n = 0 ∧ 0 < rowCount) then Throw RangeError
  else Ok (replicate rowCount (replicate (n - 1) false)).

Definition chaosRowsOf (n rowCount : nat) : nat :=
  let maxCorrectionSwaps := n * (n - 1) / 2 in
  let correctionReserve := maxCorrectionSwaps + 2 in
  Nat.max (rowCount / 2) (rowCount - correctionReserve).

Definition permutationToRungs (targetPerm : list nat) (rowCount : nat) : Rand Grid :=
  let n := length targetPerm in
  let chaosRows := chaosRowsOf n rowCount in
  let* rungs0 := lift (emptyGrid n rowCount) in
  let* rungs1 := forRange 0 chaosRows
              (fun row g => forRange 0 (n - 1) (chaosCell row) g) rungs0 in
  let currentPerm := simulatePermutation (take chaosRows rungs1) n in
  let currentInverse := inverseOf n currentPerm in
  let correction := composeCorrection n targetPerm currentInverse in
  let correctionInverse := inverseOf n correction in
  let correctionSwaps := correctionSwapsOf n correctionInverse in
  let* placed := lift (placeCorrections rowCount correctionSwaps chaosRows rungs1) in
  fillerLoop rowCount n rowCount placed.1 placed.2.

(** One slot of a row in unconstrained mode:
    [rowRungs.push(!prevHasRung && Math.random() > 0.4)]. *)
Definition plainCell (col : nat) (rowRungs : list bool) : Rand (list bool) :=
  let prevHasRung := bool_decide (0 < col) && truthy (rowRungs !! (col - 1)) in
  if prevHasRung then ret (rowRungs ++ [false])
  else let* b := randomAbove04 in ret (rowRungs ++ [b]).

Definition plainRow (slots : nat) (row : nat) (rungs : Grid) : Rand Grid :=
  let* rowRungs := forRange 0 slots plainCell [] in
  ret (rungs ++ [rowRungs]).

Definition rowCountOf (playerCount : Z) (excludeSelf : bool) : nat :=
  Z.to_nat (if excludeSelf then Z.max 12 (playerCount * playerCount)
            else Z.max 12 (playerCount * 4)).

(** [Array.from({ length: n })] clamps a negative [playerCount] to no
    element, and neither loop over columns runs then: both take
    [Z.to_nat]. *)
Definition generateLadder (config : LadderConfig) : Rand LadderData :=
  let pc := playerCount config in
  let rowCount := rowCountOf pc (excludeSelf config) in
  if excludeSelf config then
    let* targetPerm := generateDerangement (Z.to_nat pc) in
    let* rungs := permutationToRungs targetPerm rowCount in
    ret {| rungs := rungs; rowCount := rowCount |}
  else
    let* rungs := forRange 0 rowCount (plainRow (Z.to_nat (pc - 1))) [] in
    ret {| rungs := rungs; rowCount := rowCount |}.

End Generator.

(** ** The tracer *)

(** The double that holds the row or column number [n]: [n] ones added up,
    as [row++] adds them.  Every sum is exact below [2^53]. *)
Fixpoint numberOf (n : nat) : float :=
  match n with
  | 0 => 0%float
  | S m => (numberOf m + 1)%float
  end.

Section Tracer.

Variables (cellWidth cellHeight startY : float).

(** [col * cellWidth + cellWidth / 2 + 50] *)
Definition getX (col : nat) : float :=
  (numberOf col * cellWidth + cellWidth / 2 + 50)%float.

(** [row * cellHeight + startY + cellHeight / 2] *)
Definition getY (row : nat) : float :=
  (numberOf row * cellHeight + startY + cellHeight / 2)%float.

(** Body of the row loop on the pair ([col], [path]). *)
Definition traceRow (rungs : Grid) (playerCount : nat) (row : nat)
    (st : nat * list PathPoint.t) : Outcome (nat * list PathPoint.t) :=
  let col := st.1 in
  let y := getY row in
  let path := st.2 ++ [PathPoint.mk (getX col) y] in
  let? left := (if decide (0 < col) then getRung rungs row (col - 1) else Ok false) in
  if left then Ok (col - 1, path ++ [PathPoint.mk (getX (col - 1)) y])
  else
    let? right :=
      (if decide (col < playerCount - 1) then getRung rungs row col else Ok false) in
    if right then Ok (col + 1, path ++ [PathPoint.mk (getX (col + 1)) y])
    else Ok (col, path).

Definition traceLadderPath (ladder : LadderData) (startCol playerCount : nat)
  : Outcome TraceResult :=
  let? st := forFromO (rowCount ladder) 0 (traceRow (rungs ladder) playerCount)
           (startCol, [PathPoint.mk (getX startCol) startY]) in
  let finalY := (numberOf (rowCount ladder) * cellHeight + startY)%float in
  Ok {| path := st.2 ++ [PathPoint.mk (getX st.1) finalY]; finalColumn := st.1 |}.

End Tracer.

(** [results.push(traceLadderPath(ladder, i, playerCount, 1, 1, 0).finalColumn)]
    for [i] in [0, playerCount). *)
Definition computeAllResults (ladder : LadderData) (playerCount : nat)
  : Outcome (list nat) :=
  forFromO playerCount 0
    (fun i results =>
       let? trace := traceLadderPath 1 1 0 ladder i playerCount in
       Ok (results ++ [finalColumn trace]))
    [].

(** [results.every((val, idx) => val !== idx)] *)
Definition isValidDerangement (results : list nat) : bool :=
  forallb (fun idx => negb (bool_decide (results !! idx = Some idx)))
          (seq 0 (length results)).

(** [rungs.every(row => no i in [1, row.length) with row[i] && row[i-1])] *)
Definition hasNoAdjacentRungs (rungs : Grid) : bool :=
  forallb (fun row =>
             forallb (fun i => negb (truthy (row !! i) && truthy (row !! (i - 1))))
                     (seq 1 (length row - 1)))
          rungs.

(** ** The helpers [generateLadder] does not call *)

Section Uniform.

Variable rnd : nat -> Q.

(** [for (let i = arr.length - 1; i > 0; i--)] of [generateRandomPermutation],
    entered at [i]: the partner [j] is drawn from [0 .. i], [i] included. *)
Fixpoint permutationLoop (i : nat) (arr : list nat) : Rand (list nat) :=
  match i with
  | 0 => ret arr
  | S i' => let* j := randomBelow rnd (i + 1) in permutationLoop i' (swapAt i j arr)
  end.

Definition generateRandomPermutation (n : nat) : Rand (list nat) :=
  permutationLoop (n - 1) (seq 0 n).

End Uniform.

(** [[perm[pos], perm[pos + 1]] = [perm[pos + 1], perm[pos]]]; the array is
    changed in place and the changed array is what the model returns.  As for
    [swapAt], the model is for [pos + 1] inside the array. *)
Definition swapAdjacent (perm : list nat) (pos : nat) : list nat :=
  swapAt pos (pos + 1) perm.

(** ** Vocabulary of the specification *)

(** What ECMAScript promises of [Math.random()]. *)
Definition rnd_ok (rnd : nat -> Q) : Prop :=
  forall k, (0 <= rnd k)%Q /\ (rnd k < 1)%Q.

(** Total correctness in [Rand]: started after [k] draws, [m] returns
    normally with a value and a draw count that satisfy [post]. *)
Definition returns {A : Type} (m : Rand A) (k : nat) (post : A -> nat -> Prop) : Prop :=
  exists a k', m k = Ok (a, k') /\ post a k'.

(** The rung test [row[col]]. *)
Definition slot (row : list bool) (col : nat) : bool := truthy (row !! col).

(** The rung test [rungs[row][col]] as a total function of the grid: no rung
    where the grid has no such row. *)
Definition cell (rungs : Grid) (row col : nat) : bool :=
  match rungs !! row with
  | Some r => slot r col
  | None => false
  end.

(** [stepCol] on a row given by its rung test. *)
Definition stepCell (n : nat) (f : nat -> bool) (col : nat) : nat :=
  if bool_decide (0 < col) && f (col - 1) then col - 1
  else if bool_decide (col < n - 1) && f col then col + 1
  else col.

(** The column reached through rows [lo, lo + len) of a grid of rung tests. *)
Fixpoint simCells (n : nat) (f : nat -> nat -> bool) (lo len col : nat) : nat :=
  match len with
  | 0 => col
  | S len' => simCells n f (S lo) len' (stepCell n (f lo) col)
  end.

(** No two horizontally adjacent slots of the row hold a rung. *)
Definition noAdjacent (f : nat -> bool) : Prop :=
  forall c, f c = true -> f (S c) = false.

(** Every row of the grid has [w] slots. *)
Definition rowsOfWidth (w : nat) (g : Grid) : Prop :=
  Forall (fun row => length row = w) g.

(** [l] holds each of [0 .. n-1] exactly once. *)
Definition isPermutation (n : nat) (l : list nat) : Prop := l ≡ₚ seq 0 n.

(** The adjacent transposition a single rung at [s] performs. *)
Definition transp (s col : nat) : nat :=
  if decide (col = s) then s + 1
  else if decide (col = s + 1) then s
  else col.

Definition applySwaps (swaps : list nat) (col : nat) : nat :=
  fold_left (fun c s => transp s c) swaps col.

(** The transposition of indices [a] and [b]. *)
Definition swapIdx (a b x : nat) : nat :=
  if decide (x = a) then b else if decide (x = b) then a else x.

(** [chain f a l z]: [f] leads from [a] through the elements of [l], in
    order, to [z]. *)
Fixpoint chain (f : nat -> nat) (a : nat) (l : list nat) (z : nat) : Prop :=
  match l with
  | [] => f a = z
  | b :: l' => f a = b /\ chain f b l' z
  end.

(** [x, arr[x], arr[arr[x]], ...], [len] elements. *)
Fixpoint orbit (arr : list nat) (x len : nat) : list nat :=
  match len with
  | 0 => []
  | S len' => x :: orbit arr (arr !!! x) len'
  end.

(** [arr] is a permutation of [0 .. n-1] with one cycle of length [n]:
    following it from 0 visits every index once in [n] steps. *)
Definition singleCycle (n : nat) (arr : list nat) : Prop :=
  isPermutation n arr /\ isPermutation n (orbit arr 0 n).

(** ** Vocabulary of traced paths *)


(** A move leads from one way point to the next. *)
Abbreviation Move := (PathPoint.t * PathPoint.t)%type.









(** The y coordinate at which the walk enters [row]: [startY] above the
    first row, the height of the previous row's rungs below. *)
Definition entryY (cellHeight startY : float) (row : nat) : float :=
  match row with
  | 0 => startY
  | S r => getY cellHeight startY r
  end.

(** The x coordinates the tracer computes for [playerCount] columns are
    numbers, and those of neighbouring columns differ. *)
Definition columnsApart (cellWidth : float) (playerCount : nat) : bool :=
  forallb (fun c => (getX cellWidth c =? getX cellWidth c)%float) (seq 0 playerCount)
  && forallb (fun c => negb (getX cellWidth c =? getX cellWidth (c + 1))%float
                       && negb (getX cellWidth (c + 1) =? getX cellWidth c)%float)
             (seq 0 (playerCount - 1)).

(** The heights the tracer computes for [rowCount] rows are numbers, and each
    differs from the one before it: [startY], the heights of the rows, and
    the final height [rowCount * cellHeight + startY]. *)
Definition rowsApart (cellHeight startY : float) (rowCount : nat) : bool :=
  forallb (fun r => (getY cellHeight startY r =? getY cellHeight startY r)%float
                    && negb (entryY cellHeight startY r =? getY cellHeight startY r)%float)
          (seq 0 rowCount)
  && negb (entryY cellHeight startY rowCount
           =? numberOf rowCount * cellHeight + startY)%float.

(** Both: in this geometry rounding merges no two lines of the board that
    the path passes from one to the other. *)
Definition coordinatesApart (cellWidth cellHeight startY : float)
    (playerCount rowCount : nat) : bool :=
  columnsApart cellWidth playerCount && rowsApart cellHeight startY rowCount.

(** ** Loop invariants *)

(** What the selection loop keeps true of ([state], [correctionSwaps]):
    [state] is a permutation of [0 .. n-1], every recorded swap is a slot of
    the grid, and the rungs recorded so far carry the column [state[p]] to
    position [p]. *)
Definition tracks (n : nat) (st : list nat * list nat) : Prop :=
  isPermutation n st.1
  /\ Forall (fun s => s + 1 < n) st.2
  /\ forall p, p < n -> applySwaps st.2 (st.1 !!! p) = p.

(** The grid [g] on entry to the trip of the filler loop at [row], started
    at [correctionRow] on the grid [g0]: the rows above [correctionRow] are
    those of [g0], the rows from [row] on are empty, and the rows between
    hold no adjacent rungs, send every column back to itself, and come in
    pairs of equal rows. *)
Definition filled (n rows correctionRow : nat) (g0 : Grid) (row : nat) (g : Grid)
  : Prop :=
  correctionRow <= row <= rows
  /\ length g = rows
  /\ (forall r c, r < correctionRow -> cell g r c = cell g0 r c)
  /\ (forall r c, row <= r -> cell g r c = false)
  /\ (forall r, correctionRow <= r -> noAdjacent (cell g r))
  /\ (forall col, col < n ->
        simCells n (cell g) correctionRow (row - correctionRow) col = col)
  /\ (exists trips, row = correctionRow + 2 * trips)
  /\ (forall j c, correctionRow + 2 * j + 1 < row ->
        cell g (correctionRow + 2 * j) c = cell g (correctionRow + 2 * j + 1) c).


(** ** A sample random source *)

(** 0.3, 0.0, 0.7, 0.4, 0.1, 0.8, 0.5, 0.2, 0.9, 0.6, and again. *)
Definition rndDemo (k : nat) : Q := Z.of_nat ((7 * k + 3) mod 10) # 10.

(** ** Random sources that steer a run *)

(** The value [j / m], which [Math.floor(Math.random() * m)] turns into [j]. *)
Definition fraction (j m : nat) : Q := Z.of_nat j # Pos.of_nat m.

(** The source [rnd] with its [k]-th value replaced by [r]. *)
Definition withDraw (k : nat) (r : Q) (rnd : nat -> Q) : nat -> Q :=
  fun m => if decide (m = k) then r else rnd m.

(** * Reasoning rules *)

(** ** The [Rand] monad *)

Section ReturnsRules.
Context {A B : Type}.

Lemma returns_ret (a : A) k (post : A -> nat -> Prop) :
  post a k -> returns (ret a) k post.
Proof. intros H. exists a, k. split; [reflexivity | exact H]. Qed.

Lemma returns_bind (m : Rand A) (f : A -> Rand B) k (post : B -> nat -> Prop) :
  returns m k (fun a k' => returns (f a) k' post) ->
  returns (bind m f) k post.
Proof.
  intros (a & k' & Hm & b & k'' & Hf & Hpost).
  exists b, k''. split; [| exact Hpost].
  unfold bind. rewrite Hm. exact Hf.
Qed.

Lemma returns_mono (m : Rand A) k (post post' : A -> nat -> Prop) :
  returns m k post ->
  (forall a k', post a k' -> post' a k') ->
  returns m k post'.
Proof. intros (a & k' & Hm & Hp) Himp. exists a, k'. auto. Qed.

Lemma returns_lift (o : Outcome A) (a : A) k (post : A -> nat -> Prop) :
  o = Ok a -> post a k -> returns (lift o) k post.
Proof. intros -> H. exists a, k. split; [reflexivity | exact H]. Qed.

Lemma returns_det (m : Rand A) k (post : A -> nat -> Prop) a k' :
  m k = Ok (a, k') -> returns m k post -> post a k'.
Proof. intros Hm (a' & k'' & Hm' & Hp). congruence. Qed.
End ReturnsRules.

(** The invariant rule of the [for] loop: [inv i s] holds of the loop state
    [s] on entry to trip [i]. *)
Lemma returns_forFrom {S : Type} (inv : nat -> S -> Prop) (body : nat -> S -> Rand S) :
  forall trips i s k,
    inv i s ->
    (forall j s k, i <= j < i + trips -> inv j s ->
                   returns (body j s) k (fun s' _ => inv (j + 1) s')) ->
    returns (forFrom trips i body s) k (fun s' _ => inv (i + trips) s').
Proof.
  induction trips as [| trips IH]; intros i s k Hinv Hbody; simpl.
  - apply returns_ret. by rewrite Nat.add_0_r.
  - apply returns_bind.
    eapply returns_mono; [apply (Hbody i s k); [lia | exact Hinv] |].
    intros s' k' Hs'. cbv beta in Hs'.
    replace (i + Datatypes.S trips) with ((i + 1) + trips) by lia.
    apply IH; [exact Hs' |].
    intros j s0 k0 Hj. apply Hbody. lia.
Qed.

Lemma returns_forRange {S : Type} (inv : nat -> S -> Prop) (body : nat -> S -> Rand S)
    lo hi s k :
  lo <= hi ->
  inv lo s ->
  (forall j s k, lo <= j < hi -> inv j s ->
                 returns (body j s) k (fun s' _ => inv (j + 1) s')) ->
  returns (forRange lo hi body s) k (fun s' _ => inv hi s').
Proof.
  intros Hle Hinv Hbody. unfold forRange.
  eapply returns_mono.
  - apply (returns_forFrom inv body (hi - lo) lo s k Hinv).
    intros j s0 k0 Hj. apply Hbody. lia.
  - intros s' k' Hs'. cbv beta in Hs'.
    by replace (lo + (hi - lo)) with hi in Hs' by lia.
Qed.

(** The same rule for loops that cannot draw. *)
Lemma forFromO_inv {S : Type} (inv : nat -> S -> Prop) (body : nat -> S -> Outcome S) :
  forall trips i s,
    inv i s ->
    (forall j s, i <= j < i + trips -> inv j s ->
                 exists s', body j s = Ok s' /\ inv (j + 1) s') ->
    exists s', forFromO trips i body s = Ok s' /\ inv (i + trips) s'.
Proof.
  induction trips as [| trips IH]; intros i s Hinv Hbody; simpl.
  - exists s. by rewrite Nat.add_0_r.
  - destruct (Hbody i s) as (s1 & Hs1 & Hinv1); [lia | exact Hinv |].
    rewrite Hs1. simpl.
    replace (i + Datatypes.S trips) with ((i + 1) + trips) by lia.
    apply IH; [exact Hinv1 |].
    intros j s0 Hj. apply Hbody. lia.
Qed.

(** ** Random draws *)

Section Draws.
Variable rnd : nat -> Q.
Hypothesis Hrnd : rnd_ok rnd.

Lemma floor_draw_lt (r : Q) (i : nat) :
  (0 <= r)%Q -> (r < 1)%Q -> 0 < i ->
  Z.to_nat (Qfloor (r * inject_Z (Z.of_nat i))) < i.
Proof.
  intros H0 H1 Hi.
  assert (Hi' : (0 < inject_Z (Z.of_nat i))%Q).
  { change 0%Q with (inject_Z 0). rewrite <- Zlt_Qlt. lia. }
  assert (Hlt : (Qfloor (r * inject_Z (Z.of_nat i)) < Z.of_nat i)%Z).
  { rewrite Zlt_Qlt.
    eapply Qle_lt_trans; [apply Qfloor_le |]. nra. }
  lia.
Qed.

Lemma returns_random k (post : Q -> nat -> Prop) :
  post (rnd k) (S k) -> returns (random rnd) k post.
Proof. intros H. exists (rnd k), (S k). split; [reflexivity | exact H]. Qed.

(** [Math.floor(Math.random() * i)] is an index below [i]. *)
Lemma returns_randomBelow i k (post : nat -> nat -> Prop) :
  (forall j, (0 < i -> j < i) -> post j (S k)) ->
  returns (randomBelow rnd i) k post.
Proof.
  intros H. unfold randomBelow. apply returns_bind, returns_random, returns_ret.
  apply H. intros Hi. destruct (Hrnd k). by apply floor_draw_lt.
Qed.

Lemma returns_randomAbove04 k (post : bool -> nat -> Prop) :
  (forall b, post b (S k)) -> returns (randomAbove04 rnd) k post.
Proof.
  intros H. unfold randomAbove04. apply returns_bind, returns_random, returns_ret, H.
Qed.
End Draws.

(** ** Rows and grids *)

Lemma slot_jsSet (i j : nat) (row : list bool) :
  slot (jsSet i true row) j = if decide (j = i) then true else slot row j.
Proof.
  unfold slot, jsSet. destruct (decide (i < length row)) as [Hi | Hi].
  - destruct (decide (j = i)) as [-> | Hne].
    + by rewrite list_lookup_insert_eq.
    + by rewrite list_lookup_insert_ne.
  - destruct (decide (j < length row)) as [Hj | Hj].
    + rewrite lookup_app_l by exact Hj.
      destruct (decide (j = i)); [lia | done].
    + rewrite lookup_app_r by lia.
      rewrite (lookup_ge_None_2 row j) by lia.
      destruct (decide (j - length row < i - length row)) as [Hh | Hh].
      * rewrite lookup_app_l by (rewrite length_replicate; lia).
        rewrite lookup_replicate_2 by lia.
        destruct (decide (j = i)); [lia | done].
      * rewrite lookup_app_r by (rewrite length_replicate; lia).
        rewrite length_replicate.
        destruct (decide (j = i)) as [-> | Hne].
        -- by replace (i - length row - (i - length row)) with 0 by lia.
        -- destruct (j - length row - (i - length row)) as [| d] eqn:Hd; [lia | done].
Qed.

Lemma getRung_cell (g : Grid) (row col : nat) :
  row < length g -> getRung g row col = Ok (cell g row col).
Proof.
  intros Hrow. unfold getRung, cell.
  destruct (lookup_lt_is_Some_2 g row Hrow) as [r ->]. reflexivity.
Qed.

Lemma setRung_spec (g : Grid) (row col : nat) :
  row < length g ->
  exists g', setRung row col g = Ok g'
             /\ length g' = length g
             /\ forall r c, cell g' r c
                            = if decide (r = row /\ c = col) then true else cell g r c.
Proof.
  intros Hrow. unfold setRung.
  destruct (lookup_lt_is_Some_2 g row Hrow) as [rw Hrw]. rewrite Hrw.
  eexists. split; [reflexivity |]. split; [by rewrite length_insert |].
  intros r c. unfold cell.
  destruct (decide (r = row)) as [-> | Hne].
  - rewrite list_lookup_insert_eq by exact Hrow. rewrite Hrw, slot_jsSet.
    destruct (decide (c = col)), (decide (row = row /\ c = col)); tauto || done.
  - rewrite list_lookup_insert_ne by done.
    destruct (decide (r = row /\ c = col)); [tauto | done].
Qed.

Lemma cell_lookup (g : Grid) (row : nat) (r : list bool) :
  g !! row = Some r -> cell g row = slot r.
Proof. intros H. unfold cell. by rewrite H. Qed.

Lemma cell_empty (m rows row col : nat) :
  cell (replicate rows (replicate m false)) row col = false.
Proof.
  unfold cell. destruct (decide (row < rows)) as [H | H].
  - rewrite lookup_replicate_2 by exact H. unfold slot.
    destruct (decide (col < m)) as [Hc | Hc].
    + by rewrite lookup_replicate_2.
    + by rewrite lookup_ge_None_2 by (rewrite length_replicate; lia).
  - by rewrite lookup_ge_None_2 by (rewrite length_replicate; lia).
Qed.

Lemma cell_take (g : Grid) (rows row col : nat) :
  row < rows -> cell (take rows g) row col = cell g row col.
Proof. intros H. unfold cell. by rewrite lookup_take_lt. Qed.

(** [hasNoAdjacentRungs] decides that every row is free of adjacent rungs. *)
Lemma noAdjacent_row_check (row : list bool) :
  forallb (fun i => negb (truthy (row !! i) && truthy (row !! (i - 1))))
          (seq 1 (length row - 1)) = true
  <-> noAdjacent (slot row).
Proof.
  rewrite forallb_forall. unfold noAdjacent, slot. split.
  - intros H c Hc.
    destruct (decide (S c < length row)) as [Hlt | Hge].
    + specialize (H (S c)). rewrite in_seq in H.
      specialize (H ltac:(lia)). simpl in H. rewrite Nat.sub_0_r, Hc in H.
      destruct (truthy (row !! S c)); [discriminate | reflexivity].
    + by rewrite lookup_ge_None_2 by lia.
  - intros H i Hi. apply in_seq in Hi.
    destruct (truthy (row !! (i - 1))) eqn:Hp; [| by rewrite andb_false_r].
    apply H in Hp. replace (S (i - 1)) with i in Hp by lia. by rewrite Hp.
Qed.

Lemma hasNoAdjacentRungs_spec (g : Grid) :
  hasNoAdjacentRungs g = true <-> forall row, noAdjacent (cell g row).
Proof.
  unfold hasNoAdjacentRungs. rewrite forallb_forall. split.
  - intros H row. unfold cell. destruct (g !! row) as [r |] eqn:Hr.
    + apply noAdjacent_row_check, H. apply list_elem_of_In.
      by apply list_elem_of_lookup_2 in Hr.
    + intros c Hc. discriminate.
  - intros H r Hr. apply list_elem_of_In, list_elem_of_lookup_1 in Hr as [row Hrow].
    apply noAdjacent_row_check. rewrite <- (cell_lookup g row r Hrow). apply H.
Qed.

(** ** One row of the walk *)

Lemma stepCol_stepCell n row col : stepCol n row col = stepCell n (slot row) col.
Proof. reflexivity. Qed.

(** The three ways through a row, with what each one tells of the row. *)
Lemma stepCell_cases n f col :
  (0 < col /\ f (col - 1) = true /\ stepCell n f col = col - 1)
  \/ ((col = 0 \/ f (col - 1) = false) /\ col < n - 1 /\ f col = true
      /\ stepCell n f col = col + 1)
  \/ ((col = 0 \/ f (col - 1) = false) /\ (n - 1 <= col \/ f col = false)
      /\ stepCell n f col = col).
Proof.
  unfold stepCell.
  destruct (bool_decide (0 < col)) eqn:H0;
    [apply bool_decide_eq_true in H0 | apply bool_decide_eq_false in H0];
    destruct (f (col - 1)) eqn:Hl; simpl;
    try (left; split_and!; done || lia);
    (destruct (bool_decide (col < n - 1)) eqn:H1;
     [apply bool_decide_eq_true in H1 | apply bool_decide_eq_false in H1];
     destruct (f col) eqn:Hr; simpl;
     [ right; left; split_and!; auto; lia
     | right; right; split_and!; auto; lia ..]).
Qed.

(** Two readings of the same slot, written differently, agree. *)
Ltac slot_clash :=
  match goal with
  | H1 : ?f ?a = true, H2 : ?f ?b = false |- _ =>
      let E := fresh in assert (E : a = b) by lia; congruence
  end.

Ltac step_cases n f col :=
  let H := fresh in
  destruct (stepCell_cases n f col) as [H | [H | H]]; destruct_and! H;
  repeat match goal with H : _ \/ _ |- _ => destruct H end.

Lemma stepCell_ext n (f f' : nat -> bool) col :
  (forall c, f c = f' c) -> stepCell n f col = stepCell n f' col.
Proof. intros H. unfold stepCell. by rewrite !H. Qed.

Lemma stepCell_lt n f col : col < n -> stepCell n f col < n.
Proof. intros H. step_cases n f col; lia. Qed.

Lemma stepCell_false n f col : (forall c, f c = false) -> stepCell n f col = col.
Proof. intros H. unfold stepCell. rewrite !H, !andb_false_r. reflexivity. Qed.

(** A row without adjacent rungs is its own inverse. *)
Lemma stepCell_invol n f col :
  noAdjacent f -> col < n -> stepCell n f (stepCell n f col) = col.
Proof.
  intros Hadj Hcol.
  step_cases n f col;
    match goal with H : stepCell n f col = _ |- _ => rewrite H end;
    try (step_cases n f (col - 1);
         match goal with H : stepCell n f (col - 1) = _ |- _ => rewrite H end);
    try (step_cases n f (col + 1);
         match goal with H : stepCell n f (col + 1) = _ |- _ => rewrite H end);
    try (step_cases n f col;
         match goal with H : stepCell n f col = _ |- _ => rewrite H end);
    try lia; try slot_clash;
    match goal with H : f (col - 1 - 1) = true |- _ => apply Hadj in H end;
    slot_clash.
Qed.

Lemma stepCell_inj n f c1 c2 :
  noAdjacent f -> c1 < n -> c2 < n ->
  stepCell n f c1 = stepCell n f c2 -> c1 = c2.
Proof.
  intros Hadj H1 H2 H. rewrite <- (stepCell_invol n f c1 Hadj H1), H.
  by apply stepCell_invol.
Qed.

(** A row with a single rung at [s] swaps columns [s] and [s + 1]. *)
Lemma stepCell_single n f s col :
  (forall c, f c = bool_decide (c = s)) -> s + 1 < n ->
  stepCell n f col = transp s col.
Proof.
  intros Hf Hs. unfold transp.
  step_cases n f col;
    repeat match goal with H : f _ = _ |- _ => rewrite Hf in H end;
    repeat case_bool_decide; repeat case_decide; try lia; try congruence.
Qed.

(** Two rows with the same single rung, one after the other, change nothing. *)
Lemma stepCell_pair n f1 f2 s col :
  (forall c, f1 c = bool_decide (c = s)) ->
  (forall c, f2 c = bool_decide (c = s)) ->
  col < n ->
  stepCell n f2 (stepCell n f1 col) = col.
Proof.
  intros H1 H2 Hcol.
  rewrite (stepCell_ext n f2 f1) by (intros c; by rewrite H1, H2).
  apply stepCell_invol; [| exact Hcol]. intros c Hc. rewrite H1 in *.
  repeat case_bool_decide; try lia; done.
Qed.

(** ** Several rows *)

Lemma simCells_ext n (f f' : nat -> nat -> bool) len : forall lo col,
  (forall r c, lo <= r < lo + len -> f r c = f' r c) ->
  simCells n f lo len col = simCells n f' lo len col.
Proof.
  induction len as [| len IH]; intros lo col H; simpl; [reflexivity |].
  rewrite (stepCell_ext n (f lo) (f' lo)) by (intros c; apply H; lia).
  apply IH. intros r c Hr. apply H. lia.
Qed.

Lemma simCells_add n f a b : forall lo col,
  simCells n f lo (a + b) col = simCells n f (lo + a) b (simCells n f lo a col).
Proof.
  induction a as [| a IH]; intros lo col; simpl.
  - by rewrite Nat.add_0_r.
  - rewrite IH. by replace (S lo + a) with (lo + S a) by lia.
Qed.

Lemma simCells_lt n f len : forall lo col,
  col < n -> simCells n f lo len col < n.
Proof.
  induction len as [| len IH]; intros lo col H; simpl; [exact H |].
  by apply IH, stepCell_lt.
Qed.

Lemma simCells_false n f len : forall lo col,
  (forall r c, lo <= r < lo + len -> f r c = false) ->
  simCells n f lo len col = col.
Proof.
  induction len as [| len IH]; intros lo col H; simpl; [reflexivity |].
  rewrite stepCell_false by (intros c; apply H; lia).
  apply IH. intros r c Hr. apply H. lia.
Qed.

Lemma simCells_inj n f len : forall lo c1 c2,
  (forall r, lo <= r < lo + len -> noAdjacent (f r)) ->
  c1 < n -> c2 < n ->
  simCells n f lo len c1 = simCells n f lo len c2 -> c1 = c2.
Proof.
  induction len as [| len IH]; intros lo c1 c2 Hadj H1 H2 H; simpl in H; [exact H |].
  apply IH in H; [| intros r Hr; apply Hadj; lia | by apply stepCell_lt ..].
  eapply (stepCell_inj n (f lo)); [| exact H1 | exact H2 | exact H]. apply Hadj. lia.
Qed.

(** Rows that each hold the single rung [swaps !! i] perform [applySwaps]. *)
Lemma simCells_singles n f swaps : forall lo col,
  (forall i s, swaps !! i = Some s ->
               s + 1 < n /\ forall c, f (lo + i) c = bool_decide (c = s)) ->
  simCells n f lo (length swaps) col = applySwaps swaps col.
Proof.
  induction swaps as [| s swaps IH]; intros lo col H; simpl; [reflexivity |].
  destruct (H 0 s eq_refl) as [Hs Hf]. rewrite Nat.add_0_r in Hf.
  rewrite (stepCell_single n (f lo) s col Hf Hs).
  apply IH. intros i s' Hi. specialize (H (S i) s' Hi).
  by replace (lo + S i) with (S lo + i) in H by lia.
Qed.

(** [simulateFrom] walks the rows of the list from the first to the last. *)
Lemma simulateFrom_simCells_gen n (g : Grid) : forall (f : nat -> nat -> bool) lo col,
  (forall i r, g !! i = Some r -> forall c, f (lo + i) c = slot r c) ->
  fold_left (fun col row => stepCol n row col) g col = simCells n f lo (length g) col.
Proof.
  induction g as [| row g IH]; intros f lo col H; simpl; [reflexivity |].
  rewrite stepCol_stepCell.
  rewrite (stepCell_ext n (slot row) (f lo)).
  - apply IH. intros i r Hi c. specialize (H (S i) r Hi c).
    by replace (lo + S i) with (S lo + i) in H by lia.
  - intros c. specialize (H 0 row eq_refl c). by rewrite Nat.add_0_r in H.
Qed.

Lemma simulateFrom_simCells n (g : Grid) col :
  simulateFrom g n col = simCells n (cell g) 0 (length g) col.
Proof.
  apply simulateFrom_simCells_gen. intros i r Hi c. simpl.
  by rewrite (cell_lookup g i r Hi).
Qed.

Lemma simulateFrom_take n (g : Grid) rows col :
  rows <= length g ->
  simulateFrom (take rows g) n col = simCells n (cell g) 0 rows col.
Proof.
  intros Hle. rewrite simulateFrom_simCells, length_take_le by exact Hle.
  apply simCells_ext. intros r c Hr. apply cell_take. lia.
Qed.

(** ** Permutations stored in arrays *)

Lemma isPermutation_length n l : isPermutation n l -> length l = n.
Proof. intros H. by rewrite H, length_seq. Qed.

Lemma isPermutation_lt n l i : isPermutation n l -> i < n -> l !!! i < n.
Proof.
  intros H Hi. pose proof (isPermutation_length n l H) as Hlen.
  assert (Hin : l !!! i ∈ l).
  { apply list_elem_of_lookup. exists i. apply list_lookup_lookup_total_lt. lia. }
  revert Hin. generalize (l !!! i). intros v Hin.
  rewrite H in Hin. apply elem_of_seq in Hin. lia.
Qed.

Lemma isPermutation_inj n l i j :
  isPermutation n l -> i < n -> j < n -> l !!! i = l !!! j -> i = j.
Proof.
  intros H Hi Hj Heq. pose proof (isPermutation_length n l H) as Hlen.
  assert (Hnd : NoDup l) by (rewrite H; apply NoDup_seq).
  eapply NoDup_alt; [exact Hnd | |].
  - apply list_lookup_lookup_total_lt. lia.
  - rewrite Heq. apply list_lookup_lookup_total_lt. lia.
Qed.

Lemma isPermutation_surj n l v :
  isPermutation n l -> v < n -> exists i, i < n /\ l !!! i = v.
Proof.
  intros H Hv. pose proof (isPermutation_length n l H) as Hlen.
  assert (Hin : v ∈ l) by (rewrite H; apply elem_of_seq; lia).
  apply list_elem_of_lookup in Hin as [i Hi].
  exists i. split.
  - apply lookup_lt_Some in Hi. lia.
  - by apply list_lookup_total_correct.
Qed.

(** An array of [n] distinct numbers below [n] is a permutation. *)
Lemma isPermutation_intro n l :
  length l = n ->
  (forall i, i < n -> l !!! i < n) ->
  (forall i j, i < n -> j < n -> l !!! i = l !!! j -> i = j) ->
  isPermutation n l.
Proof.
  intros Hlen Hlt Hinj. apply submseteq_length_Permutation.
  - apply NoDup_submseteq.
    + apply NoDup_alt. intros i j x Hi Hj.
      pose proof (lookup_lt_Some _ _ _ Hi). pose proof (lookup_lt_Some _ _ _ Hj).
      apply Hinj; [lia | lia |].
      apply list_lookup_total_correct in Hi, Hj. congruence.
    + intros x Hx. apply list_elem_of_lookup in Hx as [i Hi].
      pose proof (lookup_lt_Some _ _ _ Hi).
      apply list_lookup_total_correct in Hi. subst x.
      apply elem_of_seq. specialize (Hlt i). lia.
  - rewrite length_seq. lia.
Qed.

Lemma isPermutation_seq n : isPermutation n (seq 0 n).
Proof. unfold isPermutation. reflexivity. Qed.

(** A permutation read at every index is the array itself. *)
Lemma fmap_lookup_total_seq (l : list nat) :
  (fun i => l !!! i) <$> seq 0 (length l) = l.
Proof.
  apply list_eq. intros i. rewrite list_lookup_fmap.
  destruct (decide (i < length l)) as [Hi | Hi].
  - rewrite lookup_seq_lt by exact Hi. simpl.
    by rewrite <- list_lookup_lookup_total_lt.
  - rewrite lookup_seq_ge by lia. by rewrite lookup_ge_None_2 by lia.
Qed.

(** ** The permutation a grid performs *)

Lemma simulatePermutation_length g n : length (simulatePermutation g n) = n.
Proof. unfold simulatePermutation. by rewrite length_fmap, length_seq. Qed.

Lemma simulatePermutation_lookup g n i :
  i < n -> simulatePermutation g n !!! i = simCells n (cell g) 0 (length g) i.
Proof.
  intros Hi. unfold simulatePermutation.
  rewrite (list_lookup_total_fmap (simulateFrom g n) (seq 0 n) i)
    by (rewrite length_seq; lia).
  rewrite lookup_total_seq_lt by exact Hi. apply simulateFrom_simCells.
Qed.

(** Without adjacent rungs, walking every column gives a permutation. *)
Lemma simulatePermutation_isPermutation g n :
  (forall row, noAdjacent (cell g row)) ->
  isPermutation n (simulatePermutation g n).
Proof.
  intros Hadj. apply isPermutation_intro.
  - apply simulatePermutation_length.
  - intros i Hi. rewrite simulatePermutation_lookup by exact Hi.
    by apply simCells_lt.
  - intros i j Hi Hj. rewrite !simulatePermutation_lookup by assumption.
    apply simCells_inj; auto.
Qed.

(** ** Inverting and composing *)

Lemma inverseOf_prefix n l m :
  isPermutation n l -> m <= n ->
  let inv := fold_left (fun inv i => <[l !!! i := i]> inv) (seq 0 m) (replicate n 0) in
  length inv = n /\ forall i, i < m -> inv !!! (l !!! i) = i.
Proof.
  intros Hl. induction m as [| m IH]; intros Hm; cbv zeta.
  - simpl. split; [by rewrite length_replicate | lia].
  - rewrite seq_S, fold_left_app. simpl.
    destruct IH as [Hlen IH]; [lia |].
    split; [by rewrite length_insert |].
    intros i Hi. destruct (decide (i = m)) as [-> | Hne].
    + apply list_lookup_total_insert_eq. rewrite Hlen.
      apply (isPermutation_lt n l m Hl). lia.
    + rewrite list_lookup_total_insert_ne.
      * apply IH. lia.
      * intros Heq. apply (isPermutation_inj n l m i Hl) in Heq; lia.
Qed.

Lemma inverseOf_spec n l :
  isPermutation n l ->
  isPermutation n (inverseOf n l)
  /\ (forall i, i < n -> inverseOf n l !!! (l !!! i) = i)
  /\ (forall v, v < n -> l !!! (inverseOf n l !!! v) = v).
Proof.
  intros Hl. destruct (inverseOf_prefix n l n Hl (le_n n)) as [Hlen Hinv].
  fold (inverseOf n l) in Hlen, Hinv.
  assert (Hright : forall v, v < n ->
            inverseOf n l !!! v < n /\ l !!! (inverseOf n l !!! v) = v).
  { intros v Hv. destruct (isPermutation_surj n l v Hl Hv) as (i & Hi & <-).
    rewrite Hinv by exact Hi. auto. }
  split; [| split; [exact Hinv | intros v Hv; by apply Hright]].
  apply isPermutation_intro; [exact Hlen | intros i Hi; by apply Hright |].
  intros i j Hi Hj Heq.
  destruct (Hright i Hi) as [_ <-]. destruct (Hright j Hj) as [_ <-].
  by rewrite Heq.
Qed.

Lemma composeCorrection_prefix n (target inv : list nat) m :
  m <= n ->
  let corr := fold_left (fun corr i => <[i := target !!! (inv !!! i)]> corr)
                        (seq 0 m) (replicate n 0) in
  length corr = n /\ forall i, i < m -> corr !!! i = target !!! (inv !!! i).
Proof.
  induction m as [| m IH]; intros Hm; cbv zeta.
  - simpl. split; [by rewrite length_replicate | lia].
  - rewrite seq_S, fold_left_app. simpl.
    destruct IH as [Hlen IH]; [lia |].
    split; [by rewrite length_insert |].
    intros i Hi. destruct (decide (i = m)) as [-> | Hne].
    + apply list_lookup_total_insert_eq. lia.
    + rewrite list_lookup_total_insert_ne by done. apply IH. lia.
Qed.

Lemma composeCorrection_spec n target inv :
  isPermutation n target -> isPermutation n inv ->
  isPermutation n (composeCorrection n target inv)
  /\ forall i, i < n -> composeCorrection n target inv !!! i = target !!! (inv !!! i).
Proof.
  intros Ht Hi.
  destruct (composeCorrection_prefix n target inv n (le_n n)) as [Hlen Hc].
  fold (composeCorrection n target inv) in Hlen, Hc.
  split; [| exact Hc].
  apply isPermutation_intro; [exact Hlen | |].
  - intros i Hlt. rewrite Hc by exact Hlt.
    by apply (isPermutation_lt n target), (isPermutation_lt n inv).
  - intros i j Hlt1 Hlt2. rewrite !Hc by assumption. intros Heq.
    apply (isPermutation_inj n target) in Heq;
      [| exact Ht | by apply (isPermutation_lt n inv) ..].
    by apply (isPermutation_inj n inv) in Heq.
Qed.

(** * The restricted shuffle of [generateDerangement] *)

(** ** Swapping two elements of an array *)

Lemma swapAt_length i j arr : length (swapAt i j arr) = length arr.
Proof. unfold swapAt. by rewrite !length_insert. Qed.

Lemma swapAt_lookup i j arr x :
  i < length arr -> j < length arr ->
  swapAt i j arr !!! x = arr !!! swapIdx i j x.
Proof.
  intros Hi Hj. unfold swapAt, swapIdx. cbv zeta.
  rewrite !list_lookup_total_insert, !length_insert.
  repeat case_decide; destruct_and?; subst; try lia; try (exfalso; tauto); done.
Qed.

Lemma swapAt_Permutation i j arr :
  i < length arr -> j < length arr -> swapAt i j arr ≡ₚ arr.
Proof.
  intros Hi Hj. unfold swapAt. cbv zeta.
  apply Permutation_insert_swap; by apply list_lookup_lookup_total_lt.
Qed.

(** ** Chains and cycles *)

Lemma chain_app f l1 : forall a b l2 z,
  chain f a (l1 ++ b :: l2) z <-> chain f a l1 b /\ chain f b l2 z.
Proof.
  induction l1 as [| c l1 IH]; intros a b l2 z; simpl; [tauto |].
  rewrite IH. tauto.
Qed.

(** A cycle can be listed from any of its elements. *)
Lemma chain_rotate f a l x :
  chain f a l a -> x ∈ a :: l ->
  exists l', x :: l' ≡ₚ a :: l /\ chain f x l' x.
Proof.
  intros Hc Hx. apply elem_of_cons in Hx as [-> | Hx]; [by exists l |].
  apply list_elem_of_split in Hx as (l1 & l2 & ->).
  apply chain_app in Hc as [H1 H2].
  exists (l2 ++ a :: l1). split.
  - rewrite (Permutation_app_comm l2 (a :: l1)). simpl.
    rewrite Permutation_swap. f_equiv. by rewrite Permutation_middle.
  - apply chain_app. auto.
Qed.

(** Composing with a transposition of the end [j] of a chain and a new
    element re-routes the chain to the new element. *)
Lemma chain_reroute f j new l : forall a,
  j ≠ new ->
  (forall y, y ∈ l -> y ≠ j /\ y ≠ new) ->
  chain f a l j ->
  chain (fun x => swapIdx new j (f x)) a l new.
Proof.
  induction l as [| b l IH]; intros a Hne Hl; simpl.
  - intros ->. unfold swapIdx. repeat case_decide; congruence.
  - intros [Hab Hc]. split.
    + destruct (Hl b) as [H1 H2]; [left |].
      rewrite Hab. unfold swapIdx. repeat case_decide; congruence.
    + apply IH; [exact Hne | | exact Hc]. intros y Hy. apply Hl. by right.
Qed.

Lemma chain_orbit arr l : forall a z,
  chain (fun x => arr !!! x) a l z ->
  orbit arr a (S (length l)) = a :: l.
Proof.
  induction l as [| b l IH]; intros a z; simpl; [done |].
  intros [-> Hc]. f_equal. exact (IH _ _ Hc).
Qed.

Lemma chain_ext f f' l : forall a z,
  (forall x, x ∈ a :: l -> f x = f' x) ->
  chain f a l z -> chain f' a l z.
Proof.
  induction l as [| b l IH]; intros a z Hext; simpl.
  - intros <-. symmetry. apply Hext. left.
  - intros [<- Hc]. split; [symmetry; apply Hext; left |].
    apply IH; [| exact Hc]. intros x Hx. apply Hext. by right.
Qed.

(** On a cycle of two or more distinct elements nothing stays in place. *)
Lemma chain_no_fixpoint f a l x :
  chain f a l a -> NoDup (a :: l) -> l ≠ [] -> x ∈ a :: l -> f x ≠ x.
Proof.
  intros Hc Hnd Hl Hx.
  destruct (chain_rotate f a l x Hc Hx) as (l' & Hperm & Hc').
  rewrite <- Hperm in Hnd.
  destruct l' as [| b l'].
  - apply Permutation_length in Hperm. destruct l; [done | discriminate].
  - destruct Hc' as [-> _]. apply NoDup_cons in Hnd as [Hnin _].
    intros <-. apply Hnin. left.
Qed.

Lemma chain_closed f a l x :
  chain f a l a -> x ∈ a :: l -> f x ∈ a :: l.
Proof.
  intros Hc Hx.
  destruct (chain_rotate f a l x Hc Hx) as (l' & Hperm & Hc').
  rewrite <- Hperm. destruct l' as [| b l']; simpl in Hc'.
  - rewrite Hc'. left.
  - destruct Hc' as [-> _]. right. left.
Qed.

(** ** The loop *)

Section Shuffle.
Variable rnd : nat -> Q.
Hypothesis Hrnd : rnd_ok rnd.

(** Entered at [i], the loop rearranges [arr] along a cycle of the indices
    [0 .. i] and leaves the elements above [i] where they are. *)
Lemma derangementLoop_spec : forall i arr k,
  i < length arr ->
  returns (derangementLoop rnd i arr) k (fun res _ =>
    res ≡ₚ arr
    /\ exists (f : nat -> nat) a l,
         (forall x, res !!! x = arr !!! f x)
         /\ (forall x, i < x -> f x = x)
         /\ a :: l ≡ₚ seq 0 (S i)
         /\ chain f a l a).
Proof.
  induction i as [| i IH]; intros arr k Hi; cbn [derangementLoop].
  - apply returns_ret. split; [done |].
    exists (fun x => x), 0, []. simpl. auto.
  - apply returns_bind, (returns_randomBelow rnd Hrnd). intros j Hj.
    specialize (Hj ltac:(lia)).
    eapply returns_mono.
    { apply IH. rewrite swapAt_length. lia. }
    intros res k' (Hperm & f & a & l & Hres & Hfix & Hseq & Hc).
    split.
    { rewrite Hperm. apply swapAt_Permutation; lia. }
    assert (Hjin : j ∈ a :: l) by (rewrite Hseq; apply elem_of_seq; lia).
    destruct (chain_rotate f a l j Hc Hjin) as (l' & Hperm' & Hc').
    exists (fun x => swapIdx (S i) j (f x)), (S i), (j :: l').
    split_and!.
    + intros x. rewrite Hres. apply swapAt_lookup; lia.
    + intros x Hx. rewrite Hfix by lia. unfold swapIdx.
      repeat case_decide; lia.
    + rewrite (seq_S (S i)). simpl. rewrite Hperm', Hseq.
      change (S i :: seq 0 (S i)) with ([S i] ++ seq 0 (S i)).
      apply Permutation_app_comm.
    + simpl. split.
      * rewrite Hfix by lia. unfold swapIdx. repeat case_decide; lia.
      * assert (Hnd : NoDup (j :: l')).
        { rewrite Hperm', Hseq. apply NoDup_seq. }
        apply NoDup_cons in Hnd as [Hnin _].
        apply chain_reroute; [lia | | exact Hc'].
        intros y Hy. split; [intros ->; done |].
        assert (Hy' : y ∈ j :: l') by (by right).
        rewrite Hperm', Hseq in Hy'. apply elem_of_seq in Hy'. lia.
Qed.

(** The result of [generateDerangement] is a permutation whose indices
    form one cycle. *)
Lemma generateDerangement_cycle n k :
  1 <= n ->
  returns (generateDerangement rnd n) k (fun res _ =>
    isPermutation n res
    /\ exists a l, a :: l ≡ₚ seq 0 n
                   /\ chain (fun x => res !!! x) a l a).
Proof.
  intros Hn. unfold generateDerangement.
  eapply returns_mono.
  { apply derangementLoop_spec. rewrite length_seq. lia. }
  intros res k' (Hperm & f & a & l & Hres & Hfix & Hseq & Hc).
  replace (S (n - 1)) with n in Hseq by lia.
  split; [exact Hperm |].
  exists a, l. split; [exact Hseq |].
  apply (chain_ext f); [| exact Hc].
  intros x Hx. rewrite Hres.
  pose proof (chain_closed f a l x Hc Hx) as Hfx.
  rewrite Hseq in Hfx. apply elem_of_seq in Hfx.
  rewrite lookup_total_seq_lt by lia. done.
Qed.

Lemma generateDerangement_no_fixpoint n k :
  2 <= n ->
  returns (generateDerangement rnd n) k (fun res _ =>
    isPermutation n res /\ forall i, i < n -> res !!! i ≠ i).
Proof.
  intros Hn. eapply returns_mono; [apply generateDerangement_cycle; lia |].
  intros res k' (Hperm & a & l & Hseq & Hc). split; [exact Hperm |].
  intros i Hi.
  apply (chain_no_fixpoint (fun x => res !!! x) a l i Hc).
  - rewrite Hseq. apply NoDup_seq.
  - intros ->. apply Permutation_length in Hseq.
    rewrite length_seq in Hseq. simpl in Hseq. lia.
  - rewrite Hseq. apply elem_of_seq. lia.
Qed.

Lemma generateDerangement_singleCycle n k :
  1 <= n ->
  returns (generateDerangement rnd n) k (fun res _ => singleCycle n res).
Proof.
  intros Hn. eapply returns_mono; [apply generateDerangement_cycle; lia |].
  intros res k' (Hperm & a & l & Hseq & Hc). split; [exact Hperm |].
  assert (H0 : 0 ∈ a :: l) by (rewrite Hseq; apply elem_of_seq; lia).
  destruct (chain_rotate _ a l 0 Hc H0) as (l0 & Hperm0 & Hc0).
  assert (Hlen : S (length l0) = n).
  { rewrite Hseq in Hperm0. apply Permutation_length in Hperm0.
    by rewrite length_seq in Hperm0. }
  rewrite <- Hlen at 2. rewrite (chain_orbit res l0 0 0 Hc0).
  unfold isPermutation. by rewrite Hperm0.
Qed.
End Shuffle.

(** [isValidDerangement] decides that no index holds itself. *)
Lemma isValidDerangement_spec (results : list nat) :
  isValidDerangement results = true
  <-> forall i, i < length results -> results !!! i ≠ i.
Proof.
  unfold isValidDerangement. rewrite forallb_forall. split.
  - intros H i Hi Heq. specialize (H i). rewrite in_seq in H.
    specialize (H ltac:(lia)). apply negb_true_iff, bool_decide_eq_false in H.
    apply H. rewrite <- Heq at 2. by apply list_lookup_lookup_total_lt.
  - intros H i Hi. apply in_seq in Hi. apply negb_true_iff, bool_decide_eq_false.
    intros Heq. apply list_lookup_total_correct in Heq. apply (H i); [lia | done].
Qed.

(** * Reducing the correction to adjacent swaps *)

Lemma applySwaps_snoc swaps s col :
  applySwaps (swaps ++ [s]) col = transp s (applySwaps swaps col).
Proof. unfold applySwaps. by rewrite fold_left_app. Qed.

Lemma transp_swapIdx p q : transp p (swapIdx (S p) p q) = q.
Proof. unfold transp, swapIdx. repeat case_decide; lia. Qed.

Section Selection.
Variable n : nat.

Lemma bubble_spec i : forall pos st,
  tracks n st -> i <= pos -> pos < n ->
  tracks n (bubble i pos st)
  /\ (bubble i pos st).1 !!! i = st.1 !!! pos
  /\ (forall k, k < i -> (bubble i pos st).1 !!! k = st.1 !!! k)
  /\ length (bubble i pos st).2 = length st.2 + (pos - i).
Proof.
  induction pos as [| p IH]; intros [state swaps] Htr Hi Hpos; simpl.
  - replace i with 0 by lia. split_and!; auto.
  - destruct (decide (i < S p)) as [Hlt | Hge].
    + destruct Htr as (Hperm & Hslots & Happ). simpl in *.
      pose proof (isPermutation_length n state Hperm) as Hlen.
      assert (Htr' : tracks n (swapAt (S p) p state, swaps ++ [p])).
      { unfold tracks. split_and!; simpl.
        - unfold isPermutation. rewrite swapAt_Permutation by lia. exact Hperm.
        - apply Forall_app. split; [exact Hslots |]. apply Forall_singleton. lia.
        - intros q Hq. rewrite applySwaps_snoc, swapAt_lookup by lia.
          rewrite Happ; [apply transp_swapIdx |].
          unfold swapIdx. repeat case_decide; lia. }
      destruct (IH _ Htr') as (H1 & H2 & H3 & H4); [lia | lia |].
      split_and!; [exact H1 | | |].
      * rewrite H2. simpl. rewrite swapAt_lookup by lia.
        unfold swapIdx. repeat case_decide; lia || done.
      * intros k Hk. rewrite H3 by exact Hk. simpl.
        rewrite swapAt_lookup by lia.
        unfold swapIdx. repeat case_decide; lia || done.
      * rewrite H4. simpl. rewrite length_app. simpl. lia.
    + replace i with (S p) by lia. simpl. split_and!; auto. lia.
Qed.

Variable cinv : list nat.
Hypothesis Hcinv : isPermutation n cinv.

Lemma indexOf_selected state i :
  isPermutation n state -> i < n ->
  (forall k, k < i -> state !!! k = cinv !!! k) ->
  exists pos, indexOf (cinv !!! i) state = Some pos
              /\ i <= pos < n /\ state !!! pos = cinv !!! i.
Proof.
  intros Hperm Hi Hdone.
  pose proof (isPermutation_length n state Hperm) as Hlen.
  destruct (isPermutation_surj n state (cinv !!! i) Hperm) as (q & Hq & Hqv).
  { by apply (isPermutation_lt n cinv). }
  unfold indexOf.
  destruct (list_find (fun x => x = cinv !!! i) state) as [[pos v] |] eqn:Hfind.
  - apply list_find_Some in Hfind as (Hlook & -> & _).
    pose proof (lookup_lt_Some _ _ _ Hlook) as Hpos.
    apply list_lookup_total_correct in Hlook.
    exists pos. split; [done |]. split; [| exact Hlook].
    split; [| lia].
    destruct (decide (i <= pos)) as [| Hlt]; [done |].
    rewrite Hdone in Hlook by lia.
    apply (isPermutation_inj n cinv) in Hlook; [lia | done | lia | lia].
  - apply list_find_None in Hfind. rewrite Forall_forall in Hfind.
    exfalso. apply (Hfind (state !!! q)); [| exact Hqv].
    apply list_elem_of_lookup. exists q.
    apply list_lookup_lookup_total_lt. lia.
Qed.

Lemma selection_prefix m :
  m <= n ->
  let st := fold_left (selectStep cinv) (seq 0 m) (seq 0 n, []) in
  tracks n st
  /\ (forall k, k < m -> st.1 !!! k = cinv !!! k)
  /\ 2 * length st.2 + (n - m) * (n - m - 1) <= n * (n - 1).
Proof.
  induction m as [| m IH]; intros Hm; cbv zeta.
  - simpl. split_and!; [| lia | lia].
    unfold tracks. split_and!; simpl; [apply isPermutation_seq | constructor |].
    intros p Hp. by rewrite lookup_total_seq_lt.
  - rewrite seq_S, fold_left_app. simpl.
    destruct IH as (Htr & Hdone & Hcount); [lia |].
    set (st := fold_left (selectStep cinv) (seq 0 m) (seq 0 n, [])) in *.
    destruct (indexOf_selected st.1 m) as (pos & Hidx & Hpos & Hval);
      [apply Htr | lia | exact Hdone |].
    unfold selectStep. rewrite Hidx.
    destruct (bubble_spec m pos st Htr) as (H1 & H2 & H3 & H4); [lia | lia |].
    split_and!; [exact H1 | |].
    + intros k Hk. destruct (decide (k = m)) as [-> | Hne].
      * by rewrite H2.
      * rewrite H3 by lia. apply Hdone. lia.
    + rewrite H4. nia.
Qed.

(** The recorded swaps, applied as rungs from the top, perform the
    permutation whose inverse is [cinv]; there are at most [n (n-1) / 2]. *)
Lemma correctionSwapsOf_spec (corr : list nat) :
  (forall c, c < n -> corr !!! c < n /\ cinv !!! (corr !!! c) = c) ->
  Forall (fun s => s + 1 < n) (correctionSwapsOf n cinv)
  /\ length (correctionSwapsOf n cinv) <= n * (n - 1) / 2
  /\ forall c, c < n -> applySwaps (correctionSwapsOf n cinv) c = corr !!! c.
Proof.
  intros Hcorr.
  destruct (selection_prefix n (le_n n)) as ((_ & Hslots & Happ) & Hdone & Hcount).
  fold (correctionSwapsOf n cinv) in Hslots, Happ, Hcount.
  split_and!; [exact Hslots | |].
  - apply Nat.div_le_lower_bound; lia.
  - intros c Hc. destruct (Hcorr c Hc) as [Hlt Hinv].
    specialize (Happ (corr !!! c) Hlt).
    by rewrite Hdone, Hinv in Happ.
Qed.
End Selection.

(** * Building the grid of exclude-self mode *)

Lemma noAdjacent_ext (f f' : nat -> bool) :
  (forall c, f c = f' c) -> noAdjacent f -> noAdjacent f'.
Proof. intros H Hf c. rewrite <- !H. apply Hf. Qed.

Lemma noAdjacent_false (f : nat -> bool) :
  (forall c, f c = false) -> noAdjacent f.
Proof. intros H c. by rewrite !H. Qed.

Lemma noAdjacent_single (f : nat -> bool) s :
  (forall c, f c = bool_decide (c = s)) -> noAdjacent f.
Proof.
  intros H c. rewrite !H. repeat case_bool_decide; (lia || done).
Qed.

Lemma emptyGrid_spec n rows :
  1 <= n ->
  exists g, emptyGrid n rows = Ok g
            /\ length g = rows /\ forall r c, cell g r c = false.
Proof.
  intros Hn. unfold emptyGrid. rewrite decide_False by lia.
  eexists. split; [reflexivity |]. split; [apply length_replicate |].
  intros r c. apply cell_empty.
Qed.

Section Phases.
Variable rnd : nat -> Q.
Variables (n rows : nat).

(** ** Chaos rows *)

Lemma chaosCell_spec row col g k :
  row < rows ->
  length g = rows ->
  (forall r, noAdjacent (cell g r)) ->
  (forall r c, row < r -> cell g r c = false) ->
  (forall c, col <= c -> cell g row c = false) ->
  returns (chaosCell rnd row col g) k (fun g' _ =>
    length g' = rows
    /\ (forall r, noAdjacent (cell g' r))
    /\ (forall r c, row < r -> cell g' r c = false)
    /\ (forall c, col + 1 <= c -> cell g' row c = false)).
Proof.
  intros Hrow Hlen Hadj Hbelow Hright. unfold chaosCell.
  assert (Hkeep : forall k', returns (ret g) k' (fun g' _ =>
    length g' = rows
    /\ (forall r, noAdjacent (cell g' r))
    /\ (forall r c, row < r -> cell g' r c = false)
    /\ (forall c, col + 1 <= c -> cell g' row c = false))).
  { intros k'. apply returns_ret. split_and!; auto. intros c Hc. apply Hright. lia. }
  apply returns_bind.
  apply (returns_mono _ _ (fun prev k' => k' = k /\
           prev = bool_decide (0 < col) && cell g row (col - 1))).
  { destruct (decide (0 < col)) as [H0 | H0].
    - eapply returns_lift; [apply getRung_cell; lia |].
      by rewrite bool_decide_eq_true_2.
    - apply returns_ret. by rewrite bool_decide_eq_false_2. }
  intros prev k' [-> Hprev].
  destruct prev; [apply Hkeep |].
  apply returns_bind, returns_randomAbove04. intros [|]; [| apply Hkeep].
  destruct (setRung_spec g row col) as (g' & Hset & Hlen' & Hcell); [lia |].
  eapply returns_lift; [exact Hset |].
  split_and!.
  - lia.
  - intros r c. rewrite !Hcell.
    destruct (decide (r = row /\ S c = col)) as [[-> <-] | Hnew].
    + (* the new rung has no rung to its left: [prevHasRung] was false *)
      rewrite decide_False by lia. intros Hleft.
      rewrite bool_decide_eq_true_2 in Hprev by lia. simpl in Hprev.
      rewrite Nat.sub_0_r in Hprev. congruence.
    + destruct (decide (r = row /\ c = col)) as [[-> ->] | Hold].
      * (* nor to its right: those slots are still untouched *)
        intros _. apply Hright. lia.
      * apply Hadj.
  - intros r c Hr. rewrite Hcell. rewrite decide_False by lia. by apply Hbelow.
  - intros c Hc. rewrite Hcell. rewrite decide_False by lia. apply Hright. lia.
Qed.

(** After the chaos loop the first [chaosRows] rows hold rungs, never two
    side by side, and the rows below are still empty. *)
Lemma chaosLoop_spec chaosRows g k :
  chaosRows <= rows ->
  length g = rows ->
  (forall r c, cell g r c = false) ->
  returns (forRange 0 chaosRows
             (fun row g => forRange 0 (n - 1) (chaosCell rnd row) g) g) k
    (fun g' _ =>
       length g' = rows
       /\ (forall r, noAdjacent (cell g' r))
       /\ (forall r c, chaosRows <= r -> cell g' r c = false)).
Proof.
  intros Hle Hlen Hempty.
  apply (returns_forRange (fun row g' =>
           length g' = rows
           /\ (forall r, noAdjacent (cell g' r))
           /\ (forall r c, row <= r -> cell g' r c = false))); [lia | |].
  { split_and!; [exact Hlen | | auto]. intros r. by apply noAdjacent_false. }
  intros row g1 k1 Hrow (Hlen1 & Hadj1 & Hbelow1).
  eapply returns_mono.
  - apply (returns_forRange (fun col g' =>
             length g' = rows
             /\ (forall r, noAdjacent (cell g' r))
             /\ (forall r c, row < r -> cell g' r c = false)
             /\ (forall c, col <= c -> cell g' row c = false))); [lia | |].
    + split_and!; auto. intros r c Hr. apply Hbelow1. lia.
    + intros col g2 k2 Hcol (Hlen2 & Hadj2 & Hbelow2 & Hright2).
      apply chaosCell_spec; auto. lia.
  - intros g2 k2 (Hlen2 & Hadj2 & Hbelow2 & _). split_and!; auto.
    intros r c Hr. apply Hbelow2. lia.
Qed.

End Phases.

(** ** Correction rows *)

(** With room for every swap, the correction loop writes rung [swaps !! i]
    alone into row [correctionRow + i] and stops below the last of them. *)
Lemma placeCorrections_spec rows swaps : forall correctionRow g,
  length g = rows ->
  correctionRow + length swaps <= rows ->
  (forall r c, correctionRow <= r -> cell g r c = false) ->
  exists g',
    placeCorrections rows swaps correctionRow g
      = Ok (correctionRow + length swaps, g')
    /\ length g' = rows
    /\ (forall r c, r < correctionRow -> cell g' r c = cell g r c)
    /\ (forall i s, swaps !! i = Some s ->
                    forall c, cell g' (correctionRow + i) c = bool_decide (c = s))
    /\ (forall r c, correctionRow + length swaps <= r -> cell g' r c = false).
Proof.
  induction swaps as [| s swaps IH]; intros cr g Hlen Hroom Hempty; simpl.
  - exists g. rewrite Nat.add_0_r. split_and!; auto.
    intros i s Hi. by rewrite lookup_nil in Hi.
  - simpl in Hroom. rewrite decide_False by lia.
    destruct (setRung_spec g cr s) as (g1 & -> & Hlen1 & Hcell1); [lia |].
    simpl.
    destruct (IH (cr + 1) g1) as (g' & Hrun & Hlen' & Habove & Hrows & Hbelow).
    { lia. }
    { lia. }
    { intros r c Hr. rewrite Hcell1, decide_False by lia. apply Hempty. lia. }
    exists g'. split_and!.
    + rewrite Hrun. do 2 f_equal. lia.
    + exact Hlen'.
    + intros r c Hr. rewrite Habove by lia. rewrite Hcell1.
      by rewrite decide_False by lia.
    + intros [| i] s' Hi c; simpl in Hi.
      * injection Hi as ->. rewrite Nat.add_0_r, Habove by lia.
        rewrite Hcell1. case_decide; case_bool_decide; try tauto; try done.
        apply Hempty. lia.
      * replace (cr + S i) with (cr + 1 + i) by lia. by apply Hrows.
    + intros r c Hr. apply Hbelow. lia.
Qed.

(** ** Filler rows *)

Section Filler.
Variable rnd : nat -> Q.
Variables (n rows : nat).

(** On two empty rows one trip of the filler loop always places its pair:
    the same slot in both rows. *)
Lemma fillerStep_spec row g k :
  row + 1 < rows ->
  length g = rows ->
  (forall r c, row <= r -> cell g r c = false) ->
  returns (fillerStep rnd n rows row g) k (fun g' _ =>
    length g' = rows
    /\ (forall r c, r < row -> cell g' r c = cell g r c)
    /\ (forall r c, row + 2 <= r -> cell g' r c = false)
    /\ exists s, forall c, cell g' row c = bool_decide (c = s)
                           /\ cell g' (row + 1) c = bool_decide (c = s)).
Proof.
  intros Hrow Hlen Hempty. unfold fillerStep.
  apply returns_bind.
  exists (Z.to_nat (Qfloor (rnd k * inject_Z (Z.of_nat (n - 1))))), (S k).
  split; [reflexivity |].
  set (col := Z.to_nat _).
  apply returns_bind.
  apply (returns_mono _ _ (fun prev k' => k' = S k /\ prev = false)).
  { destruct (decide (0 < col)).
    - eapply returns_lift; [apply getRung_cell; lia |].
      split; [done |]. apply Hempty. lia.
    - by apply returns_ret. }
  intros prev k' [-> ->].
  apply returns_bind.
  apply (returns_mono _ _ (fun next k' => k' = S k /\ next = false)).
  { destruct (decide (col < n - 2)).
    - eapply returns_lift; [apply getRung_cell; lia |].
      split; [done |]. apply Hempty. lia.
    - by apply returns_ret. }
  intros next k' [-> ->]. simpl.
  destruct (setRung_spec g row col) as (g1 & Hset1 & Hlen1 & Hcell1); [lia |].
  apply returns_bind. eapply returns_lift; [exact Hset1 |].
  rewrite decide_True by lia.
  destruct (setRung_spec g1 (row + 1) col) as (g2 & Hset2 & Hlen2 & Hcell2); [lia |].
  eapply returns_lift; [exact Hset2 |].
  split_and!.
  - lia.
  - intros r c Hr. rewrite Hcell2, Hcell1. by rewrite !decide_False by lia.
  - intros r c Hr. rewrite Hcell2, Hcell1, !decide_False by lia.
    apply Hempty. lia.
  - exists col. intros c. rewrite !Hcell2, !Hcell1. split.
    + rewrite (decide_False (P := row = row + 1 /\ _)) by lia.
      case_decide; case_bool_decide; try tauto; try done. apply Hempty. lia.
    + case_decide; case_bool_decide; try tauto; try done.
      rewrite decide_False by lia. apply Hempty. lia.
Qed.

(** The trips of the filler loop never use up [rows] units of fuel. *)
Lemma fillerLoop_fuel : forall fuel row g k,
  rows <= row + fuel + 1 ->
  fillerLoop rnd (S fuel) n rows row g k = fillerLoop rnd fuel n rows row g k.
Proof.
  induction fuel as [| fuel IH]; intros row g k Hfuel.
  - simpl. by rewrite decide_False by lia.
  - change (fillerLoop rnd (S (S fuel)) n rows row g k)
      with ((if decide (row < rows - 1)
             then bind (fillerStep rnd n rows row g)
                       (fun g' => fillerLoop rnd (S fuel) n rows (row + 2) g')
             else ret g) k).
    change (fillerLoop rnd (S fuel) n rows row g k)
      with ((if decide (row < rows - 1)
             then bind (fillerStep rnd n rows row g)
                       (fun g' => fillerLoop rnd fuel n rows (row + 2) g')
             else ret g) k).
    destruct (decide (row < rows - 1)); [| reflexivity].
    unfold bind.
    destruct (fillerStep rnd n rows row g k) as [[g' k'] | e]; [| reflexivity].
    apply IH. lia.
Qed.

Lemma fillerLoop_enough : forall extra row g k,
  fillerLoop rnd (rows + extra) n rows row g k = fillerLoop rnd rows n rows row g k.
Proof.
  induction extra as [| extra IH]; intros row g k.
  - by rewrite Nat.add_0_r.
  - replace (rows + S extra) with (S (rows + extra)) by lia.
    rewrite fillerLoop_fuel by lia. apply IH.
Qed.

Variable correctionRow : nat.
Variable g0 : Grid.

Lemma filled_done row g :
  filled n rows correctionRow g0 row g -> ~ row < rows - 1 ->
  length g = rows
  /\ (forall r c, r < correctionRow -> cell g r c = cell g0 r c)
  /\ (forall r, correctionRow <= r -> noAdjacent (cell g r))
  /\ (forall col, col < n ->
        simCells n (cell g) correctionRow (rows - correctionRow) col = col)
  /\ (forall j c,
        cell g (correctionRow + 2 * j) c = cell g (correctionRow + 2 * j + 1) c).
Proof.
  intros (Hrow & Hlen & Habove & Hempty & Hadj & Hsim & [trips ->] & Hpairs) Hexit.
  split_and!; auto.
  - intros col Hcol.
    replace (rows - correctionRow)
      with ((correctionRow + 2 * trips - correctionRow)
            + (rows - (correctionRow + 2 * trips))) by lia.
    rewrite simCells_add, Hsim by exact Hcol.
    apply simCells_false. intros r c Hr. apply Hempty. lia.
  - intros j c. destruct (decide (j < trips)) as [Hj | Hj].
    + apply Hpairs. lia.
    + rewrite !Hempty by lia. reflexivity.
Qed.

Lemma filled_step row g k :
  filled n rows correctionRow g0 row g -> row < rows - 1 ->
  returns (fillerStep rnd n rows row g) k
    (fun g' _ => filled n rows correctionRow g0 (row + 2) g').
Proof.
  intros (Hrow & Hlen & Habove & Hempty & Hadj & Hsim & [trips Htrips] & Hpairs) Hguard.
  eapply returns_mono; [apply fillerStep_spec; [lia | exact Hlen | exact Hempty] |].
  intros g' k' (Hlen' & Hsame & Hempty' & s & Hpair).
  split_and!; [lia | lia | exact Hlen' | | exact Hempty' | | | |].
  - intros r c Hr. rewrite Hsame by lia. by apply Habove.
  - intros r Hr.
    destruct (decide (r < row)) as [Hlt | Hge].
    + apply (noAdjacent_ext (cell g r)); [| by apply Hadj].
      intros c. symmetry. apply Hsame. lia.
    + destruct (decide (r = row)) as [-> | Hne];
        [apply (noAdjacent_single _ s); intros c; apply Hpair |].
      destruct (decide (r = row + 1)) as [-> | Hne'];
        [apply (noAdjacent_single _ s); intros c; apply Hpair |].
      apply noAdjacent_false. intros c. apply Hempty'. lia.
  - intros col Hcol.
    replace (row + 2 - correctionRow) with ((row - correctionRow) + 2) by lia.
    rewrite simCells_add.
    rewrite (simCells_ext n (cell g') (cell g) (row - correctionRow) correctionRow col)
      by (intros r c Hr; apply Hsame; lia).
    rewrite Hsim by exact Hcol.
    replace (correctionRow + (row - correctionRow)) with row by lia.
    simpl. replace (S row) with (row + 1) by lia.
    apply (stepCell_pair n _ _ s); [intros c; apply Hpair .. | exact Hcol].
  - exists (trips + 1). lia.
  - intros j c Hj. destruct (decide (j < trips)) as [Hlt | Hge].
    + rewrite !Hsame by lia. apply Hpairs. lia.
    + replace j with trips by lia. rewrite <- Htrips.
      destruct (Hpair c) as [-> ->]. reflexivity.
Qed.

(** The filler loop leaves the rows above [correctionRow] as they are and
    adds, below, rows that send every column back to itself. *)
Lemma fillerLoop_spec : forall fuel row g k,
  filled n rows correctionRow g0 row g ->
  rows <= row + fuel + 1 ->
  returns (fillerLoop rnd fuel n rows row g) k (fun g' _ =>
    length g' = rows
    /\ (forall r c, r < correctionRow -> cell g' r c = cell g0 r c)
    /\ (forall r, correctionRow <= r -> noAdjacent (cell g' r))
    /\ (forall col, col < n ->
          simCells n (cell g') correctionRow (rows - correctionRow) col = col)
    /\ (forall j c,
          cell g' (correctionRow + 2 * j) c
          = cell g' (correctionRow + 2 * j + 1) c)).
Proof.
  induction fuel as [| fuel IH]; intros row g k Hfilled Hfuel; simpl.
  - apply returns_ret. apply (filled_done row); [exact Hfilled | lia].
  - destruct (decide (row < rows - 1)) as [Hguard | Hexit].
    + apply returns_bind.
      eapply returns_mono; [by apply filled_step |].
      intros g' k' Hfilled'. cbv beta. apply IH; [exact Hfilled' | lia].
    + apply returns_ret. by apply (filled_done row).
Qed.

Lemma filled_start :
  correctionRow <= rows ->
  length g0 = rows ->
  (forall r c, correctionRow <= r -> cell g0 r c = false) ->
  filled n rows correctionRow g0 correctionRow g0.
Proof.
  intros Hle Hlen Hempty. split_and!; auto; try lia.
  - intros r Hr. apply noAdjacent_false. intros c. by apply Hempty.
  - intros col _. by rewrite Nat.sub_diag.
  - exists 0. lia.
Qed.
End Filler.

(** ** The whole grid *)

Lemma cell_take_ge (g : Grid) (rows row col : nat) :
  rows <= row -> cell (take rows g) row col = false.
Proof. intros H. unfold cell. by rewrite lookup_take_ge. Qed.

Lemma chaosRowsOf_room n rows :
  n * n <= rows ->
  chaosRowsOf n rows <= rows
  /\ chaosRowsOf n rows + n * (n - 1) / 2 <= rows.
Proof.
  intros H. unfold chaosRowsOf. cbv zeta.
  assert (Hle : n * (n - 1) <= n * n) by nia.
  generalize dependent (n * (n - 1)). intros a Ha.
  generalize dependent (n * n). intros b Hb Hab.
  pose proof (Nat.Div0.div_mod a 2). pose proof (Nat.mod_upper_bound a 2).
  pose proof (Nat.Div0.div_mod rows 2). pose proof (Nat.mod_upper_bound rows 2).
  lia.
Qed.

Section Whole.
Variable rnd : nat -> Q.

(** The filler loop does not change where any column ends. *)
Lemma fillerLoop_preserves n rows correctionRow g k :
  length g = rows ->
  correctionRow <= rows ->
  (forall r c, correctionRow <= r -> cell g r c = false) ->
  returns (fillerLoop rnd rows n rows correctionRow g) k (fun g' _ =>
    length g' = rows
    /\ (forall r c, r < correctionRow -> cell g' r c = cell g r c)
    /\ (forall r, correctionRow <= r -> noAdjacent (cell g' r))
    /\ (forall j c,
          cell g' (correctionRow + 2 * j) c
          = cell g' (correctionRow + 2 * j + 1) c)
    /\ simulatePermutation g' n = simulatePermutation g n).
Proof.
  intros Hlen Hle Hempty.
  eapply returns_mono.
  { apply (fillerLoop_spec rnd n rows correctionRow g rows correctionRow g k).
    - by apply filled_start.
    - lia. }
  intros g' k' (Hlen' & Hsame & Hadj & Hid & Hpairs).
  split_and!; [exact Hlen' | exact Hsame | exact Hadj | exact Hpairs |].
  unfold simulatePermutation. apply list_fmap_ext. intros i col Hcol.
  apply lookup_seq in Hcol as [-> Hcol]. simpl.
  rewrite !simulateFrom_simCells, Hlen, Hlen'.
  assert (Hsplit : forall f, simCells n f 0 rows i
            = simCells n f correctionRow (rows - correctionRow)
                (simCells n f 0 correctionRow i)).
  { intros f.
    change correctionRow with (0 + correctionRow) at 1.
    rewrite <- (simCells_add n f correctionRow (rows - correctionRow) 0 i).
    f_equal. lia. }
  rewrite !Hsplit.
  rewrite Hid by (by apply simCells_lt).
  rewrite (simCells_false n (cell g)) by (intros r c Hr; apply Hempty; lia).
  apply simCells_ext. intros r c Hr. apply Hsame. lia.
Qed.

(** [permutationToRungs] returns a grid of [rows] rows, free of adjacent
    rungs, on which every column [i] ends in column [targetPerm[i]]. *)
Lemma permutationToRungs_spec targetPerm rows k :
  let n := length targetPerm in
  isPermutation n targetPerm ->
  1 <= n ->
  n * n <= rows ->
  returns (permutationToRungs rnd targetPerm rows) k (fun g _ =>
    length g = rows
    /\ (forall r, noAdjacent (cell g r))
    /\ simulatePermutation g n = targetPerm).
Proof.
  intros n Htarget Hn Hrows. unfold permutationToRungs. fold n.
  destruct (chaosRowsOf_room n rows Hrows) as [Hchaos Hroom].
  set (chaosRows := chaosRowsOf n rows) in *.
  (* the empty grid *)
  destruct (emptyGrid_spec n rows Hn) as (g0 & Hg0 & Hlen0 & Hempty0).
  apply returns_bind. eapply returns_lift; [exact Hg0 |].
  (* the chaos rows *)
  apply returns_bind.
  eapply returns_mono;
    [apply (chaosLoop_spec rnd n rows chaosRows g0 k Hchaos Hlen0 Hempty0) |].
  intros g1 k1 (Hlen1 & Hadj1 & Hempty1). cbv beta zeta.
  (* the correction *)
  set (currentPerm := simulatePermutation (take chaosRows g1) n).
  assert (Hcur : isPermutation n currentPerm).
  { apply simulatePermutation_isPermutation. intros r.
    destruct (decide (r < chaosRows)).
    - apply (noAdjacent_ext (cell g1 r)); [| apply Hadj1].
      intros c. symmetry. by apply cell_take.
    - apply noAdjacent_false. intros c. apply cell_take_ge. lia. }
  destruct (inverseOf_spec n currentPerm Hcur) as (Hinv & Hinv_l & _).
  set (currentInverse := inverseOf n currentPerm) in *.
  destruct (composeCorrection_spec n targetPerm currentInverse Htarget Hinv)
    as (Hcorr & Hcorr_at).
  set (correction := composeCorrection n targetPerm currentInverse) in *.
  destruct (inverseOf_spec n correction Hcorr) as (Hcinv & Hcinv_l & _).
  set (correctionInverse := inverseOf n correction) in *.
  destruct (correctionSwapsOf_spec n correctionInverse Hcinv correction)
    as (Hslots & Hcount & Hswaps).
  { intros c Hc. split; [by apply (isPermutation_lt n) | by apply Hcinv_l]. }
  set (swaps := correctionSwapsOf n correctionInverse) in *.
  destruct (placeCorrections_spec rows swaps chaosRows g1 Hlen1)
    as (g2 & Hplace & Hlen2 & Hsame2 & Hrungs2 & Hempty2);
    [lia | exact Hempty1 |].
  apply returns_bind. eapply returns_lift; [exact Hplace |]. simpl.
  (* the filler rows *)
  set (correctionRow := chaosRows + length swaps) in *.
  eapply returns_mono;
    [apply (fillerLoop_preserves n rows correctionRow g2 k1 Hlen2);
     [lia | exact Hempty2] |].
  intros g3 k3 (Hlen3 & Hsame3 & Hadj3 & _ & Hsim3).
  split_and!; [exact Hlen3 | |].
  - intros r. destruct (decide (r < correctionRow)) as [Hr | Hr];
      [| apply Hadj3; lia].
    apply (noAdjacent_ext (cell g2 r));
      [intros c; symmetry; by apply Hsame3 |].
    destruct (decide (r < chaosRows)) as [Hr' | Hr'].
    + apply (noAdjacent_ext (cell g1 r)); [| apply Hadj1].
      intros c. symmetry. by apply Hsame2.
    + destruct (lookup_lt_is_Some_2 swaps (r - chaosRows)) as [s Hs];
        [unfold correctionRow in Hr; lia |].
      apply (noAdjacent_single _ s). intros c.
      specialize (Hrungs2 _ _ Hs c).
      by replace (chaosRows + (r - chaosRows)) with r in Hrungs2 by lia.
  - rewrite Hsim3. rewrite <- (fmap_lookup_total_seq targetPerm). fold n.
    unfold simulatePermutation. apply list_fmap_ext. intros i col Hcol.
    apply lookup_seq in Hcol as [-> Hcol]. simpl.
    rewrite simulateFrom_simCells, Hlen2.
    replace rows with (chaosRows + (length swaps + (rows - correctionRow)))
      by (unfold correctionRow; lia).
    rewrite !simCells_add. simpl. fold correctionRow.
    rewrite (simCells_false n (cell g2) (rows - correctionRow))
      by (intros r c Hr; apply Hempty2; lia).
    rewrite (simCells_singles n (cell g2) swaps chaosRows).
    2:{ intros j s Hs. split; [| by apply Hrungs2].
        rewrite Forall_forall in Hslots. apply Hslots.
        by apply list_elem_of_lookup_2 in Hs. }
    rewrite (simCells_ext n (cell g2) (cell g1) chaosRows 0 i)
      by (intros r c Hr; apply Hsame2; lia).
    rewrite <- (simulateFrom_take n g1 chaosRows i) by lia.
    assert (Hat : simulateFrom (take chaosRows g1) n i = currentPerm !!! i).
    { unfold currentPerm, simulatePermutation.
      rewrite (list_lookup_total_fmap (simulateFrom (take chaosRows g1) n) (seq 0 n) i)
        by (rewrite length_seq; lia).
      by rewrite lookup_total_seq_lt. }
    rewrite Hat.
    rewrite Hswaps by (by apply (isPermutation_lt n)).
    rewrite Hcorr_at by (by apply (isPermutation_lt n)).
    by rewrite Hinv_l.
Qed.
End Whole.

(** * Unconstrained mode and [generateLadder] *)

Lemma slot_snoc (row : list bool) (v : bool) (c : nat) :
  slot (row ++ [v]) c
  = if decide (c < length row) then slot row c
    else if decide (c = length row) then v else false.
Proof.
  unfold slot. repeat case_decide.
  - by rewrite lookup_app_l.
  - subst c. rewrite lookup_app_r, Nat.sub_diag by lia. simpl. by destruct v.
  - by rewrite lookup_ge_None_2 by (rewrite length_app; simpl; lia).
Qed.

Lemma cell_snoc (g : Grid) (row : list bool) (r c : nat) :
  cell (g ++ [row]) r c
  = if decide (r < length g) then cell g r c
    else if decide (r = length g) then slot row c else false.
Proof.
  unfold cell. repeat case_decide.
  - by rewrite lookup_app_l.
  - subst r. by rewrite lookup_app_r, Nat.sub_diag by lia.
  - by rewrite lookup_ge_None_2 by (rewrite length_app; simpl; lia).
Qed.

Section Plain.
Variable rnd : nat -> Q.

Lemma plainCell_spec col rowRungs k :
  length rowRungs = col ->
  noAdjacent (slot rowRungs) ->
  returns (plainCell rnd col rowRungs) k (fun row' _ =>
    length row' = col + 1 /\ noAdjacent (slot row')).
Proof.
  intros Hlen Hadj. unfold plainCell. cbv zeta.
  assert (Hfalse : noAdjacent (slot (rowRungs ++ [false]))).
  { intros c. rewrite !slot_snoc.
    repeat case_decide; try lia; try done. apply Hadj. }
  destruct (bool_decide (0 < col) && truthy (rowRungs !! (col - 1))) eqn:Hprev.
  - apply returns_ret. rewrite length_app. simpl. split; [lia | exact Hfalse].
  - apply returns_bind, returns_randomAbove04. intros b. apply returns_ret.
    rewrite length_app. simpl. split; [lia |].
    destruct b; [| exact Hfalse].
    intros c. rewrite !slot_snoc. repeat case_decide; try lia; try done.
    + apply Hadj.
    + (* the slot left of the new rung is free: [prevHasRung] was false *)
      intros Hc. exfalso. apply andb_false_iff in Hprev as [Hp | Hp].
      * apply bool_decide_eq_false in Hp. lia.
      * unfold slot in Hc. replace (col - 1) with c in Hp by lia. congruence.
Qed.

Lemma plainRow_spec slots row g k :
  length g = row ->
  (forall r, noAdjacent (cell g r)) ->
  returns (plainRow rnd slots row g) k (fun g' _ =>
    length g' = row + 1 /\ forall r, noAdjacent (cell g' r)).
Proof.
  intros Hlen Hadj. unfold plainRow. apply returns_bind.
  eapply returns_mono.
  - apply (returns_forRange (fun col rowRungs =>
             length rowRungs = col /\ noAdjacent (slot rowRungs))); [lia | |].
    + split; [done |]. intros c Hc. done.
    + intros col rowRungs k' _ [Hl Ha]. by apply plainCell_spec.
  - intros rowRungs k' [Hl Ha]. apply returns_ret.
    rewrite length_app. simpl. split; [lia |].
    intros r. apply (noAdjacent_ext
      (fun c => if decide (r < length g) then cell g r c
                else if decide (r = length g) then slot rowRungs c else false)).
    + intros c. symmetry. apply cell_snoc.
    + repeat case_decide; [apply Hadj | exact Ha | by apply noAdjacent_false].
Qed.

Lemma plainRows_spec slots rows k :
  returns (forRange 0 rows (plainRow rnd slots) []) k (fun g _ =>
    length g = rows /\ forall r, noAdjacent (cell g r)).
Proof.
  apply (returns_forRange (fun row g =>
           length g = row /\ forall r, noAdjacent (cell g r))); [lia | |].
  - split; [done |]. intros r. by apply noAdjacent_false.
  - intros row g k' _ [Hl Ha]. by apply plainRow_spec.
Qed.
End Plain.

Lemma rowCountOf_spec (pc : Z) (excl : bool) :
  Z.of_nat (rowCountOf pc excl)
  = if excl then Z.max 12 (pc * pc) else Z.max 12 (pc * 4).
Proof. unfold rowCountOf. destruct excl; lia. Qed.

Section Ladder.
Variable rnd : nat -> Q.
Hypothesis Hrnd : rnd_ok rnd.

(** A ladder for one or more players: the grid has [rowCount] rows, no two
    rungs side by side, and in exclude-self mode it performs the
    permutation drawn first, which for two or more players moves every
    column. *)
Lemma generateLadder_spec (n : nat) (excl : bool) k :
  1 <= n ->
  returns (generateLadder rnd {| playerCount := Z.of_nat n; excludeSelf := excl |}) k
    (fun ladder _ =>
       rowCount ladder = rowCountOf (Z.of_nat n) excl
       /\ length (rungs ladder) = rowCount ladder
       /\ (forall r, noAdjacent (cell (rungs ladder) r))
       /\ (excl = true ->
           exists target k1,
             generateDerangement rnd n k = Ok (target, k1)
             /\ isPermutation n target
             /\ (2 <= n -> forall i, i < n -> target !!! i ≠ i)
             /\ simulatePermutation (rungs ladder) n = target)).
Proof.
  intros Hn. unfold generateLadder. simpl.
  destruct excl.
  - rewrite Nat2Z.id.
    destruct (generateDerangement_cycle rnd Hrnd n k Hn)
      as (target & k1 & Hgen & Hperm & _).
    assert (Hfix : 2 <= n -> forall i, i < n -> target !!! i ≠ i).
    { intros H2.
      apply (returns_det (generateDerangement rnd n) k
               (fun res _ => forall i, i < n -> res !!! i ≠ i) target k1 Hgen).
      eapply returns_mono; [by apply generateDerangement_no_fixpoint |].
      intros res ? [_ H]. exact H. }
    apply returns_bind. exists target, k1. split; [exact Hgen |].
    pose proof (isPermutation_length n target Hperm) as Hlen.
    apply returns_bind. eapply returns_mono.
    + apply permutationToRungs_spec; rewrite Hlen; [exact Hperm | lia |].
      unfold rowCountOf. nia.
    + intros g k' (Hrows & Hadj & Hsim). rewrite Hlen in Hsim.
      apply returns_ret. simpl. split_and!; auto.
      intros _. exists target, k1. auto.
  - apply returns_bind. eapply returns_mono; [apply plainRows_spec |].
    intros g k' [Hrows Hadj]. apply returns_ret. simpl.
    split_and!; auto. discriminate.
Qed.
End Ladder.

(** * The tracer *)

(** ** Neighbours in a list that grows at its end *)


Lemma last_snoc2 {A : Type} (l : list A) (a b : A) : last (l ++ [a; b]) = Some b.
Proof.
  change (l ++ [a; b]) with (l ++ [a] ++ [b]). by rewrite app_assoc, last_snoc.
Qed.






(** ** One row *)

Section Rows.
Variables (cellWidth cellHeight startY : float).
Variable g : Grid.
Variable playerCount : nat.

Local Abbreviation colX := (getX cellWidth).
Local Abbreviation rowY := (getY cellHeight startY).

(** In a row of the grid the tracer moves as [stepCell] says, and adds a
    way point in the row, then one more if it crossed a rung. *)
Lemma traceRow_spec row col path :
  row < length g ->
  let col' := stepCell playerCount (cell g row) col in
  traceRow cellWidth cellHeight startY g playerCount row (col, path)
  = Ok (col',
        path ++ PathPoint.mk (colX col) (rowY row)
             :: (if decide (col' = col) then []
                 else [PathPoint.mk (colX col') (rowY row)])).
Proof.
  intros Hrow col'. subst col'. unfold traceRow, stepCell. simpl.
  rewrite !getRung_cell by exact Hrow.
  destruct (decide (0 < col)) as [H0 | H0]; simpl.
  - rewrite bool_decide_eq_true_2 by exact H0. simpl.
    destruct (cell g row (col - 1)); simpl.
    + rewrite decide_False by lia. by rewrite <- app_assoc.
    + destruct (decide (col < playerCount - 1)) as [H1 | H1]; simpl.
      * rewrite bool_decide_eq_true_2 by exact H1. simpl.
        destruct (cell g row col); simpl.
        -- rewrite decide_False by lia. by rewrite <- app_assoc.
        -- by rewrite decide_True.
      * rewrite bool_decide_eq_false_2 by exact H1. simpl. by rewrite decide_True.
  - rewrite bool_decide_eq_false_2 by exact H0. simpl.
    destruct (decide (col < playerCount - 1)) as [H1 | H1]; simpl.
    + rewrite bool_decide_eq_true_2 by exact H1. simpl.
      destruct (cell g row col); simpl.
      * rewrite decide_False by lia. by rewrite <- app_assoc.
      * by rewrite decide_True.
    + rewrite bool_decide_eq_false_2 by exact H1. simpl. by rewrite decide_True.
Qed.
End Rows.

(** * The tracer on any grid and in any geometry *)

Lemma forFromO_add {S : Type} (body : nat -> S -> Outcome S) a b : forall i s,
  forFromO (a + b) i body s
  = obind (forFromO a i body s) (fun s' => forFromO b (i + a) body s').
Proof.
  induction a as [| a IH]; intros i s; simpl.
  - by rewrite Nat.add_0_r.
  - destruct (body i s) as [s1 | e]; simpl; [| reflexivity].
    rewrite IH. by replace (i + 1 + a) with (i + Datatypes.S a) by lia.
Qed.

(** What a loop that returns has kept true. *)
Lemma forFromO_kept {S : Type} (inv : nat -> S -> Prop) (body : nat -> S -> Outcome S) :
  forall trips i s s',
    inv i s ->
    (forall j s s', i <= j < i + trips -> inv j s -> body j s = Ok s' -> inv (j + 1) s') ->
    forFromO trips i body s = Ok s' -> inv (i + trips) s'.
Proof.
  induction trips as [| trips IH]; intros i s s' Hinv Hbody; simpl.
  - intros [= <-]. by rewrite Nat.add_0_r.
  - destruct (body i s) as [s1 | e] eqn:Hb; simpl; [| discriminate].
    replace (i + Datatypes.S trips) with ((i + 1) + trips) by lia.
    apply IH.
    + apply (Hbody i s s1); [lia | exact Hinv | exact Hb].
    + intros j s0 s0' Hj. apply Hbody. lia.
Qed.

Section AnyGeometry.
Variables (cellWidth cellHeight startY : float).
Variable g : Grid.
Variable playerCount : nat.
Variable startCol : nat.

Local Abbreviation colX := (getX cellWidth).
Local Abbreviation rowY := (getY cellHeight startY).

(** Through rows the grid has, the walk is in the column [simCells]
    computes; it has added one or two way points per row, each on the line
    of a column and at the height of a row. *)
Lemma traceRows_shape (rows : nat) :
  rows <= length g ->
  exists path,
    forFromO rows 0 (traceRow cellWidth cellHeight startY g playerCount)
             (startCol, [PathPoint.mk (colX startCol) startY])
    = Ok (simCells playerCount (cell g) 0 rows startCol, path)
    /\ rows + 1 <= length path <= 2 * rows + 1
    /\ (startCol < playerCount ->
        Forall (fun p => exists c, c < playerCount /\ PathPoint.x p = colX c
                                   /\ (PathPoint.y p = startY
                                       \/ exists r, r < rows /\ PathPoint.y p = rowY r))
               path).
Proof.
  intros Hlen.
  destruct (forFromO_inv
              (fun row (st : nat * list PathPoint.t) =>
                 st.1 = simCells playerCount (cell g) 0 row startCol
                 /\ row + 1 <= length st.2 <= 2 * row + 1
                 /\ (startCol < playerCount ->
                     Forall (fun p => exists c, c < playerCount
                               /\ PathPoint.x p = colX c
                               /\ (PathPoint.y p = startY
                                   \/ exists r, r < row /\ PathPoint.y p = rowY r))
                            st.2))
              (traceRow cellWidth cellHeight startY g playerCount) rows 0
              (startCol, [PathPoint.mk (colX startCol) startY]))
    as ([col path] & Hrun & Hcol & Hcount & Hon).
  - simpl. split_and!; [done | lia | lia |].
    intros Hs. apply Forall_singleton. exists startCol. simpl. auto.
  - intros row [col path] Hrow (Hcol & Hcount & Hon). cbn [fst snd] in *.
    rewrite traceRow_spec by lia. cbv zeta.
    set (col' := stepCell playerCount (cell g row) col).
    assert (Hsim : col' = simCells playerCount (cell g) 0 (row + 1) startCol).
    { rewrite simCells_add. simpl. by rewrite <- Hcol. }
    eexists. split; [reflexivity |]. cbn [fst snd].
    split_and!; [exact Hsim | | |].
    + rewrite length_app. simpl. lia.
    + rewrite length_app. simpl. case_decide; simpl; lia.
    + intros Hs. specialize (Hon Hs).
      assert (Hc : col < playerCount) by (rewrite Hcol; by apply simCells_lt).
      assert (Hc' : col' < playerCount) by (by apply stepCell_lt).
      apply Forall_app. split.
      * eapply Forall_impl; [exact Hon |]. cbv beta.
        intros p (c & Hlt & Hx & [Hy | (r & Hr & Hy)]); exists c;
          (split; [exact Hlt |]); (split; [exact Hx |]); [by left | right].
        exists r. split; [lia | exact Hy].
      * apply Forall_cons. split.
        { exists col. simpl. split_and!; [done | done |].
          right. exists row. split; [lia | done]. }
        case_decide; [constructor |].
        apply Forall_singleton. exists col'. simpl. split_and!; [done | done |].
        right. exists row. split; [lia | done].
  - cbn [fst snd] in *. simpl in Hrun. exists path. subst col. auto.
Qed.

(** A row the grid does not have stops the walk with a [TypeError], except
    in the only place where the tracer reads no rung: column 0 of a ladder
    of a single column. *)
Lemma traceRow_missing row (st : nat * list PathPoint.t) :
  length g <= row -> 0 < st.1 \/ 2 <= playerCount ->
  traceRow cellWidth cellHeight startY g playerCount row st = Throw TypeError.
Proof.
  intros Hrow Hcol. unfold traceRow. cbv zeta.
  assert (Hget : forall c, getRung g row c = Throw TypeError).
  { intros c. unfold getRung. by rewrite lookup_ge_None_2. }
  destruct (decide (0 < st.1)); [by rewrite Hget |].
  simpl. rewrite decide_True by lia. by rewrite Hget.
Qed.

Lemma traceRow_alone row (path : list PathPoint.t) :
  playerCount <= 1 ->
  traceRow cellWidth cellHeight startY g playerCount row (0, path)
  = Ok (0, path ++ [PathPoint.mk (colX 0) (rowY row)]).
Proof.
  intros Hpc. unfold traceRow. cbv zeta. simpl.
  by rewrite decide_False by lia.
Qed.

Lemma traceRows_alone : forall rows row (path : list PathPoint.t),
  playerCount <= 1 ->
  exists path',
    forFromO rows row (traceRow cellWidth cellHeight startY g playerCount) (0, path)
    = Ok (0, path').
Proof.
  induction rows as [| rows IH]; intros row path Hpc; simpl; [eauto |].
  rewrite traceRow_alone by exact Hpc. simpl. by apply IH.
Qed.
End AnyGeometry.

(** The column the walk is in does not depend on the geometry. *)
Lemma traceRow_column cw ch sy cw' ch' sy' (g : Grid) pc row
    (st st' : nat * list PathPoint.t) :
  st.1 = st'.1 ->
  obind (traceRow cw ch sy g pc row st) (fun s => Ok s.1)
  = obind (traceRow cw' ch' sy' g pc row st') (fun s => Ok s.1).
Proof.
  destruct st as [col path], st' as [col' path']. simpl. intros <-.
  unfold traceRow. cbv zeta. simpl.
  destruct (decide (0 < col)); simpl.
  - destruct (getRung g row (col - 1)) as [[|] | e]; simpl; [done | | done].
    destruct (decide (col < pc - 1)); simpl; [| done].
    by destruct (getRung g row col) as [[|] | e].
  - destruct (decide (col < pc - 1)); simpl; [| done].
    by destruct (getRung g row col) as [[|] | e].
Qed.

Lemma traceRows_column cw ch sy cw' ch' sy' (g : Grid) pc :
  forall rows row (st st' : nat * list PathPoint.t),
    st.1 = st'.1 ->
    obind (forFromO rows row (traceRow cw ch sy g pc) st) (fun s => Ok s.1)
    = obind (forFromO rows row (traceRow cw' ch' sy' g pc) st') (fun s => Ok s.1).
Proof.
  induction rows as [| rows IH]; intros row st st' Hst; simpl; [by rewrite Hst |].
  pose proof (traceRow_column cw ch sy cw' ch' sy' g pc row st st' Hst) as Hrow.
  destruct (traceRow cw ch sy g pc row st) as [s1 | e1],
           (traceRow cw' ch' sy' g pc row st') as [s1' | e1'];
    simpl in *; try discriminate.
  - apply IH. congruence.
  - exact Hrow.
Qed.

Lemma traceLadderPath_column cw ch sy cw' ch' sy' ladder startCol pc :
  obind (traceLadderPath cw ch sy ladder startCol pc) (fun t => Ok (finalColumn t))
  = obind (traceLadderPath cw' ch' sy' ladder startCol pc)
          (fun t => Ok (finalColumn t)).
Proof.
  unfold traceLadderPath.
  pose proof (traceRows_column cw ch sy cw' ch' sy' (rungs ladder) pc
                (rowCount ladder) 0
                (startCol, [PathPoint.mk (getX cw startCol) sy])
                (startCol, [PathPoint.mk (getX cw' startCol) sy'])
                eq_refl) as H.
  destruct (forFromO _ _ (traceRow cw ch sy _ _) _) as [s | e],
           (forFromO _ _ (traceRow cw' ch' sy' _ _) _) as [s' | e'];
    simpl in *; congruence.
Qed.

(** The trace of a grid that has its [rows] rows. *)
Lemma traceLadderPath_shape cw ch sy (g : Grid) pc startCol rows :
  rows <= length g ->
  exists trace,
    traceLadderPath cw ch sy {| rungs := g; rowCount := rows |} startCol pc = Ok trace
    /\ finalColumn trace = simCells pc (cell g) 0 rows startCol
    /\ rows + 2 <= length (path trace) <= 2 * rows + 2
    /\ (startCol < pc ->
        Forall (fun p => exists c, c < pc /\ PathPoint.x p = getX cw c
                  /\ (PathPoint.y p = sy
                      \/ (exists r, r < rows /\ PathPoint.y p = getY ch sy r)
                      \/ PathPoint.y p = (numberOf rows * ch + sy)%float))
               (path trace)).
Proof.
  intros Hlen.
  destruct (traceRows_shape cw ch sy g pc startCol rows Hlen)
    as (path0 & Hrun & Hcount & Hon).
  unfold traceLadderPath. cbn [rungs rowCount]. rewrite Hrun. simpl.
  eexists. split; [reflexivity |]. cbn [path finalColumn].
  split_and!; [done | | |].
  - rewrite length_app. simpl. lia.
  - rewrite length_app. simpl. lia.
  - intros Hs. apply Forall_app. split.
    + eapply Forall_impl; [exact (Hon Hs) |]. cbv beta.
      intros p (c & Hlt & Hx & Hy). exists c. split_and!; [done | done | tauto].
    + apply Forall_singleton. eexists. simpl.
      split_and!; [| reflexivity | by right; right].
      by apply simCells_lt.
Qed.

Lemma traceLadderPath_missing cw ch sy (g : Grid) pc startCol rows :
  length g < rows -> 2 <= pc ->
  traceLadderPath cw ch sy {| rungs := g; rowCount := rows |} startCol pc
  = Throw TypeError.
Proof.
  intros Hlen Hpc. unfold traceLadderPath. cbn [rungs rowCount].
  replace rows with (length g + S (rows - length g - 1)) by lia.
  rewrite forFromO_add.
  destruct (traceRows_shape cw ch sy g pc startCol (length g) (le_n _))
    as (path0 & -> & _).
  simpl. rewrite traceRow_missing; [done | lia | right; exact Hpc].
Qed.

Lemma traceLadderPath_alone cw ch sy (g : Grid) pc rows :
  pc <= 1 ->
  exists trace,
    traceLadderPath cw ch sy {| rungs := g; rowCount := rows |} 0 pc = Ok trace
    /\ finalColumn trace = 0.
Proof.
  intros Hpc. unfold traceLadderPath. cbn [rungs rowCount].
  destruct (traceRows_alone cw ch sy g pc rows 0 [PathPoint.mk (getX cw 0) sy] Hpc)
    as (path' & ->).
  simpl. eauto.
Qed.


(** ** Geometry *)



Section Geometry.
Variables (cellWidth cellHeight startY : float).
Variables (playerCount rows : nat).
Hypothesis Hcols : columnsApart cellWidth playerCount = true.
Hypothesis Hrows : rowsApart cellHeight startY rows = true.

Local Abbreviation colX := (getX cellWidth).
Local Abbreviation rowY := (getY cellHeight startY).
Local Abbreviation inY := (entryY cellHeight startY).







(** ** The walk *)

Variable g : Grid.
Variable startCol : nat.
Hypothesis Hstart : startCol < playerCount.



End Geometry.

(** ** All columns *)

(** On a grid that has all its [rowCount] rows, [computeAllResults] is
    [simulatePermutation]. *)
Lemma computeAllResults_spec (ladder : LadderData) (n : nat) :
  rowCount ladder = length (rungs ladder) ->
  computeAllResults ladder n = Ok (simulatePermutation (rungs ladder) n).
Proof.
  intros Hrows. destruct ladder as [g rows]. simpl in Hrows. subst rows.
  unfold computeAllResults.
  destruct (forFromO_inv
              (fun i (results : list nat) =>
                 results = fmap (M:=list) (simulateFrom g n) (seq 0 i))
              (fun i (results : list nat) =>
                 obind (traceLadderPath 1 1 0
                          {| rungs := g; rowCount := length g |} i n)
                       (fun trace => Ok (results ++ [finalColumn trace])))
              n 0 [] eq_refl) as (results & -> & ->); [| reflexivity].
  intros i results _ ->.
  destruct (traceLadderPath_shape 1 1 0 g n i (length g) (le_n _))
    as (trace & -> & Hfinal & _).
  simpl. eexists. split; [reflexivity |].
  replace (i + 1) with (S i) by lia.
  rewrite seq_S, fmap_app, Hfinal. simpl.
  by rewrite simulateFrom_simCells.
Qed.

(** * The unit tests of the repository, on the model

    The deterministic assertions of [tests/ladder.test.ts], and its
    randomized ones on the sample source [rndDemo]. *)

Example test_isValidDerangement_true :
  isValidDerangement [1; 0] = true
  /\ isValidDerangement [1; 2; 0] = true
  /\ isValidDerangement [1; 0; 3; 2] = true.
Proof. repeat split. Qed.

Example test_isValidDerangement_false :
  isValidDerangement [0; 1] = false
  /\ isValidDerangement [1; 1; 2] = false
  /\ isValidDerangement [0; 2; 1] = false.
Proof. repeat split. Qed.

Example test_hasNoAdjacentRungs_true :
  hasNoAdjacentRungs [[true; false; true]] = true
  /\ hasNoAdjacentRungs [[false; true; false]] = true
  /\ hasNoAdjacentRungs [[false; false; false]] = true.
Proof. repeat split. Qed.

Example test_hasNoAdjacentRungs_false :
  hasNoAdjacentRungs [[true; true; false]] = false
  /\ hasNoAdjacentRungs [[false; true; true]] = false.
Proof. repeat split. Qed.

Example test_rowCount_plain :
  rowCountOf 2 false = 12 /\ rowCountOf 3 false = 12
  /\ rowCountOf 4 false = 16 /\ rowCountOf 5 false = 20.
Proof. repeat split. Qed.

Example test_rowCount_excludeSelf :
  rowCountOf 2 true = 12 /\ rowCountOf 3 true = 12
  /\ rowCountOf 4 true = 16 /\ rowCountOf 5 true = 25.
Proof. repeat split. Qed.

Example test_generateDerangement :
  generateDerangement rndDemo 5 0 = Ok ([2; 3; 4; 0; 1], 4).
Proof. vm_compute. reflexivity. Qed.

Example test_generateLadder_excludeSelf :
  exists ladder k,
    generateLadder rndDemo {| playerCount := 3; excludeSelf := true |} 0
    = Ok (ladder, k)
    /\ rungs ladder = [[true; false]; [false; false]; [true; false]; [true; false];
                       [false; true]; [true; false]; [false; false]; [false; true];
                       [false; true]; [false; true]; [true; false]; [true; false]]
    /\ generateDerangement rndDemo 3 0 = Ok ([1; 2; 0], 2)
    /\ computeAllResults ladder 3 = Ok [1; 2; 0].
Proof. eexists _, _. split; [vm_compute; reflexivity |]. repeat split. Qed.

Example test_trace_starts_and_ends :
  exists ladder k trace,
    generateLadder rndDemo {| playerCount := 4; excludeSelf := false |} 0
    = Ok (ladder, k)
    /\ traceLadderPath 60 28 40 ladder 0 4 = Ok trace
    /\ (exists p, head (path trace) = Some p
                  /\ PathPoint.x p = 80%float /\ PathPoint.y p = 40%float)
    /\ (exists p, last (path trace) = Some p
                  /\ PathPoint.y p = (16 * 28 + 40)%float)
    /\ finalColumn trace < 4.
Proof.
  eexists _, _, _. split; [vm_compute; reflexivity |].
  split; [vm_compute; reflexivity |].
  split; [eexists; split; [reflexivity | split; reflexivity] |].
  split; [eexists; split; [reflexivity | reflexivity] |].
  vm_compute. lia.
Qed.

(** * The properties of the specification *)

(** ** Sample random sources *)

Lemma rndDemo_ok : rnd_ok rndDemo.
Proof.
  intros k. unfold rndDemo, Qle, Qlt. simpl.
  pose proof (Nat.mod_upper_bound (7 * k + 3) 10). lia.
Qed.

(** ** Helpers on [generateLadder] *)

(** The shuffle draws once per trip: there is no second attempt. *)
Lemma derangementLoop_draws rnd : forall i arr k res k',
  derangementLoop rnd i arr k = Ok (res, k') -> k' = k + i.
Proof.
  induction i as [| i IH]; intros arr k res k' H; simpl in H.
  - injection H as _ <-. lia.
  - unfold bind, randomBelow, random, ret in H. simpl in H.
    apply IH in H. lia.
Qed.

(** Whatever [generateLadder] returns carries the row count of the policy. *)
Lemma generateLadder_rowCount rnd pc excl k ladder k' :
  generateLadder rnd {| playerCount := pc; excludeSelf := excl |} k = Ok (ladder, k') ->
  rowCount ladder = rowCountOf pc excl.
Proof.
  unfold generateLadder. simpl. destruct excl; unfold bind, ret.
  - destruct (generateDerangement rnd (Z.to_nat pc) k) as [[t k1] |]; [| discriminate].
    destruct (permutationToRungs rnd t (rowCountOf pc true) k1) as [[g k2] |];
      [| discriminate].
    by intros [= <- _].
  - destruct (forRange 0 (rowCountOf pc false) (plainRow rnd (Z.to_nat (pc - 1))) [] k)
      as [[g k2] |]; [| discriminate].
    by intros [= <- _].
Qed.

(** Unconstrained mode returns for every player count. *)
Lemma generateLadder_plain_returns rnd pc k :
  returns (generateLadder rnd {| playerCount := pc; excludeSelf := false |}) k
    (fun ladder _ =>
       rowCount ladder = rowCountOf pc false
       /\ length (rungs ladder) = rowCount ladder
       /\ forall r, noAdjacent (cell (rungs ladder) r)).
Proof.
  unfold generateLadder. simpl. apply returns_bind.
  eapply returns_mono; [apply plainRows_spec |].
  intros g k' [Hrows Hadj]. apply returns_ret. simpl. auto.
Qed.

(** Without a column there is no row to loop over: every row is empty and
    nothing is drawn. *)
Lemma plainRows_no_slot rnd rows : forall i g k,
  forFrom rows i (plainRow rnd 0) g k = Ok (g ++ replicate rows [], k).
Proof.
  induction rows as [| rows IH]; intros i g k; simpl.
  - by rewrite app_nil_r.
  - unfold bind at 1. unfold plainRow at 1. unfold bind, forRange, ret. simpl.
    rewrite IH. by rewrite <- app_assoc.
Qed.

Lemma generateLadder_plain_few rnd pc k :
  (pc < 2)%Z ->
  generateLadder rnd {| playerCount := pc; excludeSelf := false |} k
  = Ok ({| rungs := replicate 12 []; rowCount := 12 |}, k).
Proof.
  intros Hpc. unfold generateLadder. simpl.
  assert (Hrows : rowCountOf pc false = 12) by (unfold rowCountOf; lia).
  replace (Z.to_nat (pc - 1)) with 0 by lia.
  rewrite Hrows. unfold bind, forRange. rewrite plainRows_no_slot. reflexivity.
Qed.

(** [Array(-1)] throws before anything is drawn for a grid. *)
Lemma generateLadder_excludeSelf_none rnd pc k :
  (pc <= 0)%Z ->
  generateLadder rnd {| playerCount := pc; excludeSelf := true |} k = Throw RangeError.
Proof.
  intros Hpc. unfold generateLadder. simpl.
  replace (Z.to_nat pc) with 0 by lia.
  assert (Hrows : 0 < rowCountOf pc true) by (unfold rowCountOf; lia).
  unfold bind, generateDerangement, permutationToRungs, emptyGrid. simpl.
  unfold bind, lift. by rewrite decide_True by (split; [reflexivity | exact Hrows]).
Qed.


(** ** Exclude-self mode realizes the drawn derangement *)

(** C1.  For two or more players and any random draws,
    [generateLadder] in exclude-self mode returns a layout on which
    [computeAllResults] is exactly the derangement that
    [generateDerangement] draws first; no column ends where it started. *)
Theorem generateLadder_realizes_target (rnd : nat -> Q) (n k : nat) :
  rnd_ok rnd -> 2 <= n ->
  exists target k1 ladder k2,
    generateDerangement rnd n k = Ok (target, k1)
    /\ generateLadder rnd {| playerCount := Z.of_nat n; excludeSelf := true |} k
       = Ok (ladder, k2)
    /\ computeAllResults ladder n = Ok target
    /\ isValidDerangement target = true
    /\ forall i, i < n -> target !!! i ≠ i.
Proof.
  intros Hrnd Hn.
  destruct (generateLadder_spec rnd Hrnd n true k ltac:(lia))
    as (ladder & k2 & Hgen & _ & Hlen & _ & Hexcl).
  destruct (Hexcl eq_refl) as (target & k1 & Hdraw & Hperm & Hfix & Hsim).
  exists target, k1, ladder, k2.
  split_and!; [exact Hdraw | exact Hgen | | | by apply Hfix].
  - rewrite computeAllResults_spec by (by symmetry). by rewrite Hsim.
  - apply isValidDerangement_spec.
    rewrite (isPermutation_length n target Hperm). by apply Hfix.
Qed.

Lemma generateLadder_realizes_target_witness :
  rnd_ok rndDemo /\ 2 <= 4
  /\ exists target k1 ladder k2,
       generateDerangement rndDemo 4 0 = Ok (target, k1)
       /\ generateLadder rndDemo {| playerCount := Z.of_nat 4; excludeSelf := true |} 0
          = Ok (ladder, k2)
       /\ computeAllResults ladder 4 = Ok target
       /\ isValidDerangement target = true
       /\ forall i, i < 4 -> target !!! i ≠ i.
Proof.
  split; [exact rndDemo_ok |]. split; [lia |].
  apply (generateLadder_realizes_target rndDemo 4 0); [exact rndDemo_ok | lia].
Defined.

(** ** Invalid player counts *)

(** C2, as the code has it.  [generateLadder] does not check [playerCount].
    Below two players, unconstrained mode returns twelve empty rows;
    exclude-self mode returns a twelve-row layout for one player and throws
    the [RangeError] of [Array(-1)] for none or fewer. *)
Theorem generateLadder_unchecked_playerCount (rnd : nat -> Q) (pc : Z) (k : nat) :
  rnd_ok rnd -> (pc < 2)%Z ->
  generateLadder rnd {| playerCount := pc; excludeSelf := false |} k
  = Ok ({| rungs := replicate 12 []; rowCount := 12 |}, k)
  /\ (pc = 1%Z ->
      exists ladder k',
        generateLadder rnd {| playerCount := pc; excludeSelf := true |} k
        = Ok (ladder, k')
        /\ rowCount ladder = 12 /\ length (rungs ladder) = 12)
  /\ ((pc <= 0)%Z ->
      generateLadder rnd {| playerCount := pc; excludeSelf := true |} k
      = Throw RangeError).
Proof.
  intros Hrnd Hpc. split_and!.
  - by apply generateLadder_plain_few.
  - intros ->.
    destruct (generateLadder_spec rnd Hrnd 1 true k (le_n 1))
      as (ladder & k' & Hgen & Hrows & Hlen & _).
    exists ladder, k'. split; [exact Hgen |].
    rewrite Hlen, Hrows. split; reflexivity.
  - by apply generateLadder_excludeSelf_none.
Qed.

Lemma generateLadder_unchecked_playerCount_witness :
  rnd_ok rndDemo /\ (-3 < 2)%Z
  /\ generateLadder rndDemo {| playerCount := -3; excludeSelf := false |} 0
     = Ok ({| rungs := replicate 12 []; rowCount := 12 |}, 0)
  /\ generateLadder rndDemo {| playerCount := -3; excludeSelf := true |} 0
     = Throw RangeError.
Proof.
  split; [exact rndDemo_ok |]. split; [lia |].
  destruct (generateLadder_unchecked_playerCount rndDemo (-3) 0 rndDemo_ok ltac:(lia))
    as (Hplain & _ & Hthrow).
  split; [exact Hplain | apply Hthrow; lia].
Defined.

(** C2 fails as stated: asked for a ladder of one player, [generateLadder]
    returns a layout and raises nothing. *)
Lemma generateLadder_one_player_returns :
  rnd_ok rndDemo
  /\ generateLadder rndDemo {| playerCount := 1; excludeSelf := false |} 0
     = Ok ({| rungs := [[]; []; []; []; []; []; []; []; []; []; []; []];
              rowCount := 12 |}, 0)
  /\ generateLadder rndDemo {| playerCount := 1; excludeSelf := true |} 0
     = Ok ({| rungs := [[]; []; []; []; []; []; []; []; []; []; [true]; [true]];
              rowCount := 12 |}, 1).
Proof. split; [exact rndDemo_ok |]. split; vm_compute; reflexivity. Qed.

(** ** No adjacent rungs *)

(** C3.  For two or more players, either mode and any random draws, the
    grid [generateLadder] returns passes [hasNoAdjacentRungs]. *)
Theorem generateLadder_no_adjacent_rungs (rnd : nat -> Q) (n : nat) (excl : bool)
    (k : nat) :
  rnd_ok rnd -> 2 <= n ->
  exists ladder k',
    generateLadder rnd {| playerCount := Z.of_nat n; excludeSelf := excl |} k
    = Ok (ladder, k')
    /\ hasNoAdjacentRungs (rungs ladder) = true.
Proof.
  intros Hrnd Hn.
  destruct (generateLadder_spec rnd Hrnd n excl k ltac:(lia))
    as (ladder & k' & Hgen & _ & _ & Hadj & _).
  exists ladder, k'. split; [exact Hgen |]. by apply hasNoAdjacentRungs_spec.
Qed.

Lemma generateLadder_no_adjacent_rungs_witness :
  rnd_ok rndDemo /\ 2 <= 5
  /\ exists ladder k',
       generateLadder rndDemo {| playerCount := Z.of_nat 5; excludeSelf := true |} 0
       = Ok (ladder, k')
       /\ hasNoAdjacentRungs (rungs ladder) = true.
Proof.
  split; [exact rndDemo_ok |]. split; [lia |].
  apply (generateLadder_no_adjacent_rungs rndDemo 5 true 0); [exact rndDemo_ok | lia].
Defined.

(** ** The results are a bijection *)

(** C4.  On every layout generated for [n >= 2] players, in either mode,
    [computeAllResults] returns [n] columns that hold each of [0 .. n-1]
    exactly once. *)
Theorem computeAllResults_bijection (rnd : nat -> Q) (n : nat) (excl : bool) (k : nat) :
  rnd_ok rnd -> 2 <= n ->
  exists ladder k' results,
    generateLadder rnd {| playerCount := Z.of_nat n; excludeSelf := excl |} k
    = Ok (ladder, k')
    /\ computeAllResults ladder n = Ok results
    /\ length results = n
    /\ results ≡ₚ seq 0 n.
Proof.
  intros Hrnd Hn.
  destruct (generateLadder_spec rnd Hrnd n excl k ltac:(lia))
    as (ladder & k' & Hgen & _ & Hlen & Hadj & _).
  exists ladder, k', (simulatePermutation (rungs ladder) n).
  split_and!; [exact Hgen | | |].
  - apply computeAllResults_spec. by symmetry.
  - apply simulatePermutation_length.
  - by apply simulatePermutation_isPermutation.
Qed.

Lemma computeAllResults_bijection_witness :
  rnd_ok rndDemo /\ 2 <= 4
  /\ exists ladder k' results,
       generateLadder rndDemo {| playerCount := Z.of_nat 4; excludeSelf := false |} 0
       = Ok (ladder, k')
       /\ computeAllResults ladder 4 = Ok results
       /\ length results = 4
       /\ results ≡ₚ seq 0 4.
Proof.
  split; [exact rndDemo_ok |]. split; [lia |].
  apply (computeAllResults_bijection rndDemo 4 false 0); [exact rndDemo_ok | lia].
Defined.

(** ** The restricted shuffle *)

(** C5.  For [n >= 2] and any random draws, [generateDerangement n] returns,
    after exactly [n - 1] draws, an array of length [n] that holds each of
    [0 .. n-1] once and no [i] at index [i]. *)
Theorem generateDerangement_is_derangement (rnd : nat -> Q) (n k : nat) :
  rnd_ok rnd -> 2 <= n ->
  exists arr,
    generateDerangement rnd n k = Ok (arr, k + (n - 1))
    /\ length arr = n
    /\ arr ≡ₚ seq 0 n
    /\ (forall i, i < n -> arr !! i ≠ Some i)
    /\ isValidDerangement arr = true.
Proof.
  intros Hrnd Hn.
  destruct (generateDerangement_no_fixpoint rnd Hrnd n k Hn)
    as (arr & k' & Hgen & Hperm & Hfix).
  pose proof (derangementLoop_draws rnd _ _ _ _ _ Hgen) as ->.
  pose proof (isPermutation_length n arr Hperm) as Hlen.
  exists arr. split_and!; [exact Hgen | exact Hlen | exact Hperm | |].
  - intros i Hi Hat. apply list_lookup_total_correct in Hat. by apply (Hfix i).
  - apply isValidDerangement_spec. by rewrite Hlen.
Qed.

Lemma generateDerangement_is_derangement_witness :
  rnd_ok rndDemo /\ 2 <= 5
  /\ exists arr,
       generateDerangement rndDemo 5 0 = Ok (arr, 0 + (5 - 1))
       /\ length arr = 5
       /\ arr ≡ₚ seq 0 5
       /\ (forall i, i < 5 -> arr !! i ≠ Some i)
       /\ isValidDerangement arr = true.
Proof.
  split; [exact rndDemo_ok |]. split; [lia |].
  apply (generateDerangement_is_derangement rndDemo 5 0); [exact rndDemo_ok | lia].
Defined.

(** ** The number of rows *)

(** C6.  Every layout [generateLadder] returns has
    [rowCount = max(12, playerCount * 4)] in unconstrained mode and
    [max(12, playerCount * playerCount)] in exclude-self mode, hence at
    least 12; a layout is returned for every player count in unconstrained
    mode and for every positive one in exclude-self mode; four players
    unconstrained give 16 rows and five players exclude-self give 25. *)
Theorem generateLadder_rowCount_policy (rnd : nat -> Q) :
  rnd_ok rnd ->
  (forall pc excl k ladder k',
     generateLadder rnd {| playerCount := pc; excludeSelf := excl |} k
     = Ok (ladder, k') ->
     Z.of_nat (rowCount ladder)
     = (if excl then Z.max 12 (pc * pc) else Z.max 12 (pc * 4))
     /\ 12 <= rowCount ladder)
  /\ (forall pc excl k,
        (1 <= pc)%Z \/ excl = false ->
        exists ladder k',
          generateLadder rnd {| playerCount := pc; excludeSelf := excl |} k
          = Ok (ladder, k'))
  /\ (forall k, exists ladder k',
        generateLadder rnd {| playerCount := 4; excludeSelf := false |} k
        = Ok (ladder, k')
        /\ rowCount ladder = 16)
  /\ (forall k, exists ladder k',
        generateLadder rnd {| playerCount := 5; excludeSelf := true |} k
        = Ok (ladder, k')
        /\ rowCount ladder = 25).
Proof.
  intros Hrnd.
  assert (Hreturns : forall pc excl k,
            (1 <= pc)%Z \/ excl = false ->
            exists ladder k',
              generateLadder rnd {| playerCount := pc; excludeSelf := excl |} k
              = Ok (ladder, k')).
  { intros pc excl k Hvalid. destruct excl.
    - destruct Hvalid as [Hpc | ?]; [| discriminate].
      destruct (generateLadder_spec rnd Hrnd (Z.to_nat pc) true k ltac:(lia))
        as (ladder & k' & Hgen & _).
      rewrite Z2Nat.id in Hgen by lia. by exists ladder, k'.
    - destruct (generateLadder_plain_returns rnd pc k) as (ladder & k' & Hgen & _).
      by exists ladder, k'. }
  split_and!; [| exact Hreturns | |].
  - intros pc excl k ladder k' Hgen.
    rewrite (generateLadder_rowCount _ _ _ _ _ _ Hgen), rowCountOf_spec.
    split; [reflexivity |]. unfold rowCountOf. destruct excl; lia.
  - intros k. destruct (Hreturns 4%Z false k) as (ladder & k' & Hgen); [by right |].
    exists ladder, k'. split; [exact Hgen |].
    by rewrite (generateLadder_rowCount _ _ _ _ _ _ Hgen).
  - intros k. destruct (Hreturns 5%Z true k) as (ladder & k' & Hgen); [left; lia |].
    exists ladder, k'. split; [exact Hgen |].
    by rewrite (generateLadder_rowCount _ _ _ _ _ _ Hgen).
Qed.

Lemma generateLadder_rowCount_policy_witness :
  rnd_ok rndDemo
  /\ exists ladder k',
       generateLadder rndDemo {| playerCount := 5; excludeSelf := true |} 0
       = Ok (ladder, k')
       /\ rowCount ladder = 25.
Proof.
  split; [exact rndDemo_ok |].
  destruct (generateLadder_rowCount_policy rndDemo rndDemo_ok) as (_ & _ & _ & H).
  exact (H 0).
Defined.

(** ** The filler rows *)

(** C7.  Started on a grid whose rows from [correctionRow] on are empty,
    the filler loop returns, for any random draws, a grid that sends every
    column where the grid before it did: what it adds is, in each pair of
    rows [correctionRow + 2j] and [correctionRow + 2j + 1], the same rungs
    in both. *)
Theorem fillerLoop_keeps_permutation (rnd : nat -> Q) (n rows correctionRow : nat)
    (g : list (list bool)) (k : nat) :
  length g = rows ->
  correctionRow <= rows ->
  (forall r c, correctionRow <= r -> cell g r c = false) ->
  exists g' k',
    fillerLoop rnd rows n rows correctionRow g k = Ok (g', k')
    /\ simulatePermutation g' n = simulatePermutation g n
    /\ computeAllResults {| rungs := g'; rowCount := rows |} n
       = computeAllResults {| rungs := g; rowCount := rows |} n
    /\ (forall r c, r < correctionRow -> cell g' r c = cell g r c)
    /\ (forall j c, cell g' (correctionRow + 2 * j) c
                    = cell g' (correctionRow + 2 * j + 1) c).
Proof.
  intros Hlen Hle Hempty.
  destruct (fillerLoop_preserves rnd n rows correctionRow g k Hlen Hle Hempty)
    as (g' & k' & Hrun & Hlen' & Hsame & _ & Hpairs & Hsim).
  exists g', k'. split_and!; [exact Hrun | exact Hsim | | exact Hsame | exact Hpairs].
  rewrite !computeAllResults_spec by (simpl; congruence). simpl. by rewrite Hsim.
Qed.

Lemma fillerLoop_keeps_permutation_witness :
  exists g' k',
    fillerLoop rndDemo 6 3 6 2 [[true; false]; [false; true]; [false; false];
                                [false; false]; [false; false]; [false; false]] 0
    = Ok (g', k')
    /\ simulatePermutation g' 3 = [2; 0; 1]
    /\ computeAllResults {| rungs := g'; rowCount := 6 |} 3 = Ok [2; 0; 1].
Proof.
  destruct (fillerLoop_keeps_permutation rndDemo 3 6 2
              [[true; false]; [false; true]; [false; false];
               [false; false]; [false; false]; [false; false]] 0)
    as (g' & k' & Hrun & Hsim & Hall & _).
  - reflexivity.
  - lia.
  - intros r c Hr.
    do 6 (destruct r as [| r]; [try lia; by destruct c as [| [| [| c]]] |]).
    reflexivity.
  - exists g', k'. split; [exact Hrun |]. split; [exact Hsim |]. exact Hall.
Defined.

(** ** Traced paths *)

(** The geometries the repository uses, 100/50/80 in [Ladder.svelte] and
    60/28/40 in its tests, keep the lines of the board apart for the two to
    eight players the component offers, in both modes. *)
Lemma repository_geometries_apart :
  forallb (fun n =>
             forallb (fun excl =>
                        coordinatesApart 100 50 80 n (rowCountOf (Z.of_nat n) excl)
                        && coordinatesApart 60 28 40 n (rowCountOf (Z.of_nat n) excl))
                     [true; false])
          (seq 2 7) = true.
Proof. vm_compute. reflexivity. Qed.







(** ** The shuffle only makes cycles *)

(** C10.  For [n >= 2] and any random draws the permutation
    [generateDerangement n] returns is a single cycle of length [n].  So
    the derangement [[1; 0; 3; 2]], two transpositions, is never returned
    for [n = 4], whatever is drawn. *)
Theorem generateDerangement_single_cycle (rnd : nat -> Q) :
  rnd_ok rnd ->
  (forall n k, 2 <= n ->
     exists arr k', generateDerangement rnd n k = Ok (arr, k') /\ singleCycle n arr)
  /\ isPermutation 4 [1; 0; 3; 2]
  /\ isValidDerangement [1; 0; 3; 2] = true
  /\ ~ singleCycle 4 [1; 0; 3; 2]
  /\ forall k k', generateDerangement rnd 4 k ≠ Ok ([1; 0; 3; 2], k').
Proof.
  intros Hrnd.
  assert (Hnot : ~ singleCycle 4 [1; 0; 3; 2]).
  { intros [_ Horbit]. unfold isPermutation in Horbit. simpl in Horbit.
    assert (Hnd : NoDup [0; 1; 0; 1]) by (rewrite Horbit; apply (NoDup_seq 0 4)).
    apply NoDup_cons in Hnd as [Hnin _]. apply Hnin.
    rewrite !elem_of_cons. auto. }
  split_and!; [| | reflexivity | exact Hnot |].
  - intros n k Hn. apply (generateDerangement_singleCycle rnd Hrnd n k). lia.
  - unfold isPermutation. simpl.
    apply perm_trans with [0; 1; 3; 2]; [apply perm_swap |].
    do 2 apply perm_skip. apply perm_swap.
  - intros k k' Hgen.
    destruct (generateDerangement_singleCycle rnd Hrnd 4 k ltac:(lia))
      as (arr & k1 & Hgen1 & Hcycle).
    rewrite Hgen in Hgen1. injection Hgen1 as <- <-. by apply Hnot.
Qed.

Lemma generateDerangement_single_cycle_witness :
  rnd_ok rndDemo
  /\ (exists arr k',
        generateDerangement rndDemo 4 0 = Ok (arr, k') /\ singleCycle 4 arr)
  /\ forall k k', generateDerangement rndDemo 4 k ≠ Ok ([1; 0; 3; 2], k').
Proof.
  split; [exact rndDemo_ok |].
  destruct (generateDerangement_single_cycle rndDemo rndDemo_ok)
    as (Hcycle & _ & _ & _ & Hnever).
  split; [apply Hcycle; lia | exact Hnever].
Defined.

(** * Steering the shuffles *)

(** ** Chosen draws *)

Lemma fraction_ok j m : j < m -> (0 <= fraction j m)%Q /\ (fraction j m < 1)%Q.
Proof.
  intros Hj. unfold fraction, Qle, Qlt. simpl.
  assert (Hm : Z.pos (Pos.of_nat m) = Z.of_nat m).
  { rewrite <- positive_nat_Z, Nat2Pos.id by lia. done. }
  rewrite Hm. lia.
Qed.

Lemma floor_fraction j m :
  0 < m -> Z.to_nat (Qfloor (fraction j m * inject_Z (Z.of_nat m))) = j.
Proof.
  intros Hm.
  assert (Heq : (fraction j m * inject_Z (Z.of_nat m) == inject_Z (Z.of_nat j))%Q).
  { unfold fraction, Qeq. simpl.
    assert (Hp : Z.pos (Pos.of_nat m) = Z.of_nat m).
    { rewrite <- positive_nat_Z, Nat2Pos.id by lia. done. }
    rewrite Pos.mul_1_r, Hp. lia. }
  rewrite (Qfloor_comp _ _ Heq), Qfloor_Z. lia.
Qed.

Lemma withDraw_ok k r rnd :
  rnd_ok rnd -> (0 <= r)%Q -> (r < 1)%Q -> rnd_ok (withDraw k r rnd).
Proof.
  intros Hrnd H0 H1 m. unfold withDraw. case_decide; [done | apply Hrnd].
Qed.

Lemma randomBelow_withDraw rnd k j m :
  0 < m -> randomBelow (withDraw k (fraction j m) rnd) m k = Ok (j, S k).
Proof.
  intros Hm. unfold randomBelow, bind, random, ret, withDraw.
  rewrite decide_True by done. by rewrite floor_fraction.
Qed.

Lemma randomBelow_ext rnd rnd' m k :
  rnd k = rnd' k -> randomBelow rnd m k = randomBelow rnd' m k.
Proof. intros H. unfold randomBelow, bind, random, ret. by rewrite H. Qed.

Lemma randomBelow_count rnd m k : exists j, randomBelow rnd m k = Ok (j, S k).
Proof. unfold randomBelow, bind, random, ret. eauto. Qed.

(** A loop entered after [k] draws reads the source from [k] on only. *)
Lemma permutationLoop_ext rnd rnd' : forall i arr k,
  (forall m, k <= m -> rnd m = rnd' m) ->
  permutationLoop rnd i arr k = permutationLoop rnd' i arr k.
Proof.
  induction i as [| i IH]; intros arr k Hext; cbn [permutationLoop]; [done |].
  unfold bind. rewrite (randomBelow_ext rnd rnd') by (apply Hext; lia).
  destruct (randomBelow_count rnd' (S i + 1) k) as [j ->].
  apply IH. intros m Hm. apply Hext. lia.
Qed.

Lemma derangementLoop_ext rnd rnd' : forall i arr k,
  (forall m, k <= m -> rnd m = rnd' m) ->
  derangementLoop rnd i arr k = derangementLoop rnd' i arr k.
Proof.
  induction i as [| i IH]; intros arr k Hext; cbn [derangementLoop]; [done |].
  unfold bind. rewrite (randomBelow_ext rnd rnd') by (apply Hext; lia).
  destruct (randomBelow_count rnd' (S i) k) as [j ->].
  apply IH. intros m Hm. apply Hext. lia.
Qed.

(** ** The unrestricted shuffle *)

Lemma swapAt_take i j m arr :
  i < m -> j < m -> m <= length arr -> take m (swapAt i j arr) ≡ₚ take m arr.
Proof.
  intros Hi Hj Hm. unfold swapAt. cbv zeta.
  rewrite !take_insert_lt by lia.
  apply Permutation_insert_swap; rewrite lookup_take_lt by lia;
    apply list_lookup_lookup_total_lt; lia.
Qed.

Lemma swapAt_lookup_above i j arr x :
  i < length arr -> j < length arr -> x ≠ i -> x ≠ j ->
  swapAt i j arr !!! x = arr !!! x.
Proof.
  intros Hi Hj Hxi Hxj. rewrite swapAt_lookup by lia.
  unfold swapIdx. by rewrite !decide_False.
Qed.

Lemma take_S_total (l : list nat) m :
  m < length l -> take (S m) l = take m l ++ [l !!! m].
Proof. intros Hm. apply take_S_r. by apply list_lookup_lookup_total_lt. Qed.

Section UniformLoop.
Variable rnd : nat -> Q.
Hypothesis Hrnd : rnd_ok rnd.

(** Entered at [i], the loop rearranges the elements at [0 .. i], leaves
    the others in place and draws [i] times. *)
Lemma permutationLoop_spec : forall i arr k,
  i = 0 \/ i < length arr ->
  returns (permutationLoop rnd i arr) k (fun res k' =>
    res ≡ₚ arr /\ k' = k + i
    /\ forall x, i < x -> res !!! x = arr !!! x).
Proof.
  induction i as [| i IH]; intros arr k Hi; cbn [permutationLoop].
  - apply returns_ret. split_and!; [done | lia | done].
  - destruct Hi as [Hi | Hi]; [lia |].
    apply returns_bind, (returns_randomBelow rnd Hrnd). intros j Hj.
    specialize (Hj ltac:(lia)).
    eapply returns_mono.
    { apply IH. rewrite swapAt_length. lia. }
    intros res k' (Hperm & -> & Hfix). split_and!.
    + rewrite Hperm. apply swapAt_Permutation; lia.
    + lia.
    + intros x Hx. rewrite Hfix by lia. apply swapAt_lookup_above; lia.
Qed.
End UniformLoop.

(** Every arrangement of the elements at [0 .. i] that leaves the others in
    place is reached by some random source. *)
Lemma permutationLoop_reaches : forall i (arr target : list nat) k,
  i < length arr ->
  length target = length arr ->
  take (S i) target ≡ₚ take (S i) arr ->
  (forall x, i < x -> target !!! x = arr !!! x) ->
  exists rnd, rnd_ok rnd /\ permutationLoop rnd i arr k = Ok (target, k + i).
Proof.
  induction i as [| i IH]; intros arr target k Hi Hlen Hperm Hfix.
  - exists (fun _ => 0%Q). split; [intros m; split; [apply Qle_refl | reflexivity] |].
    cbn [permutationLoop]. unfold ret. rewrite Nat.add_0_r. do 2 f_equal.
    symmetry. apply list_eq_same_length with (length arr); [done | done |].
    intros x a b Hx Ha Hb.
    apply list_lookup_total_correct in Ha, Hb. subst a b.
    destruct x as [| x]; [| apply Hfix; lia].
    rewrite !take_S_total in Hperm by lia. simpl in Hperm.
    by apply Permutation_singleton_inj in Hperm.
  - set (v := target !!! S i).
    assert (Hv : v ∈ take (S (S i)) arr).
    { rewrite <- Hperm, (take_S_total target (S i)) by lia.
      apply elem_of_app. right. by left. }
    apply list_elem_of_lookup in Hv as [j Hj].
    pose proof (lookup_lt_Some _ _ _ Hj) as Hjlt.
    rewrite length_take in Hjlt.
    rewrite lookup_take_lt in Hj by lia.
    apply list_lookup_total_correct in Hj.
    destruct (IH (swapAt (S i) j arr) target (S k)) as (rnd & Hrnd & Hrun).
    + rewrite swapAt_length. lia.
    + by rewrite swapAt_length.
    + assert (Hsw : take (S (S i)) (swapAt (S i) j arr) ≡ₚ take (S (S i)) target).
      { rewrite Hperm. apply swapAt_take; lia. }
      rewrite (take_S_total target (S i)) in Hsw by lia.
      rewrite (take_S_total (swapAt (S i) j arr) (S i)) in Hsw
        by (rewrite swapAt_length; lia).
      rewrite swapAt_lookup in Hsw by lia.
      unfold swapIdx in Hsw. rewrite decide_True in Hsw by done.
      rewrite Hj in Hsw. fold v in Hsw.
      symmetry. by apply Permutation_app_inv_r in Hsw.
    + intros x Hx. destruct (decide (x = S i)) as [-> | Hne].
      * rewrite swapAt_lookup by lia. unfold swapIdx.
        rewrite decide_True by done. by rewrite Hj.
      * rewrite swapAt_lookup_above by lia. apply Hfix. lia.
    + exists (withDraw k (fraction j (S i + 1)) rnd). split.
      * apply withDraw_ok; [exact Hrnd | |]; apply fraction_ok; lia.
      * cbn [permutationLoop]. unfold bind.
        rewrite randomBelow_withDraw by lia.
        rewrite (permutationLoop_ext _ rnd).
        -- rewrite Hrun. do 2 f_equal. lia.
        -- intros m Hm. unfold withDraw. rewrite decide_False by lia. done.
Qed.

(** ** Every cycle is an output of the restricted shuffle *)

Lemma swapIdx_invol a b x : swapIdx a b (swapIdx a b x) = x.
Proof. unfold swapIdx. repeat case_decide; congruence. Qed.

Lemma swapIdx_comm a b x : swapIdx a b x = swapIdx b a x.
Proof. unfold swapIdx. repeat case_decide; congruence. Qed.

(** A chain lists the images of its elements. *)
Lemma chain_fmap f l : forall a z,
  chain f a l z <-> f <$> (a :: l) = l ++ [z].
Proof.
  induction l as [| b l IH]; intros a z; simpl.
  - split; [by intros -> | by intros [= ->]].
  - rewrite IH. simpl. split.
    + by intros [-> ->].
    + intros [= -> H]. by rewrite H.
Qed.

(** Following an array from [a] is a chain. *)
Lemma orbit_chain arr : forall len a,
  exists z, chain (fun x => arr !!! x) a (orbit arr (arr !!! a) len) z.
Proof.
  induction len as [| len IH]; intros a; simpl; [eauto |].
  destruct (IH (arr !!! a)) as [z Hz]. eauto.
Qed.

(** A chain of an injective map through distinct elements that ends among
    them ends where it began. *)
Lemma chain_closes f a l z :
  (forall x y, x ∈ a :: l -> y ∈ a :: l -> f x = f y -> x = y) ->
  NoDup (a :: l) -> z ∈ a :: l -> chain f a l z -> z = a.
Proof.
  intros Hinj Hnd Hz Hc. apply chain_fmap in Hc.
  assert (Hnd' : NoDup (f <$> a :: l)) by (by apply NoDup_fmap_2_strong).
  rewrite Hc in Hnd'. apply NoDup_app in Hnd' as (_ & Hdisj & _).
  apply elem_of_cons in Hz as [-> | Hz]; [done |].
  exfalso. apply (Hdisj z Hz). left.
Qed.

Lemma singleCycle_chain n arr :
  1 <= n -> singleCycle n arr ->
  exists l, 0 :: l ≡ₚ seq 0 n /\ chain (fun x => arr !!! x) 0 l 0.
Proof.
  intros Hn [Hperm Horb]. destruct n as [| m]; [lia |].
  cbn [orbit] in Horb. unfold isPermutation in Horb.
  destruct (orbit_chain arr m 0) as [z Hz].
  exists (orbit arr (arr !!! 0) m). split; [exact Horb |].
  assert (Hin : forall x, x ∈ 0 :: orbit arr (arr !!! 0) m <-> x < S m).
  { intros x. rewrite Horb, elem_of_seq. lia. }
  replace 0 with z at 3; [exact Hz |].
  eapply chain_closes; [| | | exact Hz].
  - intros x y Hx Hy. apply (isPermutation_inj (S m) arr); [done | by apply Hin ..].
  - rewrite Horb. apply NoDup_seq.
  - apply chain_fmap in Hz.
    assert (Hz' : z ∈ (fun x => arr !!! x) <$> 0 :: orbit arr (arr !!! 0) m).
    { rewrite Hz. apply elem_of_app. right. left. }
    apply list_elem_of_fmap in Hz' as (y & -> & Hy).
    apply Hin, (isPermutation_lt (S m) arr); [done | by apply Hin].
Qed.

(** Entered at [i], the loop reaches every rearrangement of [arr] along a
    cycle of the indices [0 .. i]. *)
Lemma derangementLoop_reaches : forall i (arr target : list nat) k f a l,
  i < length arr ->
  length target = length arr ->
  (forall x, x < length arr -> target !!! x = arr !!! f x) ->
  (forall x, i < x -> f x = x) ->
  a :: l ≡ₚ seq 0 (S i) ->
  chain f a l a ->
  exists rnd, rnd_ok rnd /\ derangementLoop rnd i arr k = Ok (target, k + i).
Proof.
  induction i as [| i IH]; intros arr target k f a l Hi Hlen Hres Hfix Hseq Hc.
  - exists (fun _ => 0%Q). split; [intros m; split; [apply Qle_refl | reflexivity] |].
    cbn [derangementLoop]. unfold ret. rewrite Nat.add_0_r. do 2 f_equal.
    symmetry. apply list_eq_same_length with (length arr); [done | done |].
    intros x u v Hx Hu Hv.
    apply list_lookup_total_correct in Hu, Hv. subst u v.
    rewrite Hres by exact Hx. f_equal.
    destruct x as [| x]; [| apply Hfix; lia].
    simpl in Hseq. apply Permutation_singleton_r in Hseq.
    injection Hseq as -> ->. exact Hc.
  - assert (Hnd : NoDup (a :: l)) by (rewrite Hseq; apply NoDup_seq).
    assert (Hin : forall x, x ∈ a :: l <-> x < S (S i)).
    { intros x. rewrite Hseq, elem_of_seq. lia. }
    assert (Hl : l ≠ []).
    { intros ->. apply Permutation_length in Hseq.
      rewrite length_seq in Hseq. simpl in Hseq. lia. }
    set (j := f (S i)).
    assert (Hj : j < S i).
    { assert (j < S (S i)) by (apply Hin, chain_closed; [done | apply Hin; lia]).
      assert (j ≠ S i).
      { apply (chain_no_fixpoint f a l (S i)); [done .. | apply Hin; lia]. }
      lia. }
    destruct (chain_rotate f a l (S i) Hc) as (l' & Hperm' & Hc');
      [apply Hin; lia |].
    destruct l' as [| b l''].
    { apply Permutation_length in Hperm'. destruct l; [done | discriminate]. }
    destruct Hc' as [Hb Hc']. fold j in Hb. subst b.
    assert (Hnd' : NoDup (S i :: j :: l'')) by (by rewrite Hperm').
    apply NoDup_cons in Hnd' as [Hn1 Hnd'].
    apply NoDup_cons in Hnd' as [Hn2 _].
    destruct (IH (swapAt (S i) j arr) target (S k)
                 (fun x => swapIdx (S i) j (f x)) j l'') as (rnd & Hrnd & Hrun).
    + rewrite swapAt_length. lia.
    + by rewrite swapAt_length.
    + intros x Hx. rewrite swapAt_length in Hx.
      rewrite swapAt_lookup, swapIdx_invol by lia. by apply Hres.
    + intros x Hx. destruct (decide (x = S i)) as [-> | Hne].
      * fold j. unfold swapIdx. repeat case_decide; lia.
      * rewrite Hfix by lia. unfold swapIdx. repeat case_decide; lia.
    + rewrite Hseq, (seq_S (S i)) in Hperm'. simpl in Hperm'.
      apply (Permutation_cons_inv (a := S i)).
      rewrite Hperm'.
      change (0 :: seq 1 i ++ [S i]) with (seq 0 (S i) ++ [S i]).
      change (S i :: 0 :: seq 1 i) with ([S i] ++ seq 0 (S i)).
      apply Permutation_app_comm.
    + apply (chain_ext (fun x => swapIdx j (S i) (f x))).
      { intros x _. apply swapIdx_comm. }
      apply chain_reroute; [lia | | exact Hc'].
      intros y Hy. split.
      * intros ->. apply Hn1. by right.
      * intros ->. done.
    + exists (withDraw k (fraction j (S i)) rnd). split.
      * apply withDraw_ok; [exact Hrnd | |]; apply fraction_ok; lia.
      * cbn [derangementLoop]. unfold bind.
        rewrite randomBelow_withDraw by lia.
        rewrite (derangementLoop_ext _ rnd).
        -- rewrite Hrun. do 2 f_equal. lia.
        -- intros m Hm. unfold withDraw. rewrite decide_False by lia. done.
Qed.

(** * The simulator on any grid *)

Lemma simulateFrom_lt (g : Grid) n col : col < n -> simulateFrom g n col < n.
Proof. intros H. rewrite simulateFrom_simCells. by apply simCells_lt. Qed.

Lemma simulateFrom_app (g1 g2 : Grid) n col :
  simulateFrom (g1 ++ g2) n col = simulateFrom g2 n (simulateFrom g1 n col).
Proof. unfold simulateFrom. apply fold_left_app. Qed.

Lemma simulatePermutation_at (g : Grid) n i :
  i < n -> simulatePermutation g n !!! i = simulateFrom g n i.
Proof.
  intros Hi. unfold simulatePermutation.
  rewrite (list_lookup_total_fmap (simulateFrom g n) (seq 0 n) i)
    by (rewrite length_seq; lia).
  by rewrite lookup_total_seq_lt.
Qed.

(** The check of [hasNoAdjacentRungs], row by row. *)
Lemma hasNoAdjacentRungs_rows (g : Grid) :
  hasNoAdjacentRungs g = true <-> Forall (fun row => noAdjacent (slot row)) g.
Proof.
  unfold hasNoAdjacentRungs. rewrite forallb_forall, Forall_forall.
  split; intros H row Hrow.
  - apply noAdjacent_row_check, H. by apply list_elem_of_In.
  - apply noAdjacent_row_check, H. by apply list_elem_of_In.
Qed.

(** Walking back up through rows without adjacent rungs undoes the walk down. *)
Lemma simulateFrom_reverse (g : Grid) n : forall col,
  Forall (fun row => noAdjacent (slot row)) g -> col < n ->
  simulateFrom (reverse g) n (simulateFrom g n col) = col.
Proof.
  induction g as [| row g IH]; intros col Hadj Hcol; [reflexivity |].
  apply Forall_cons in Hadj as [Hrow Hadj].
  rewrite reverse_cons, simulateFrom_app.
  change (simulateFrom (row :: g) n col) with (simulateFrom g n (stepCol n row col)).
  rewrite IH; [| exact Hadj | rewrite stepCol_stepCell; by apply stepCell_lt].
  change (simulateFrom [row] n (stepCol n row col))
    with (stepCol n row (stepCol n row col)).
  rewrite !stepCol_stepCell. by apply stepCell_invol.
Qed.

(** ** The inverse built by the [for] loops of [permutationToRungs] *)

Lemma inverseOf_inverseOf n (l : list nat) :
  isPermutation n l -> inverseOf n (inverseOf n l) = l.
Proof.
  intros Hl. destruct (inverseOf_spec n l Hl) as (Hinv & Hleft & _).
  destruct (inverseOf_spec n (inverseOf n l) Hinv) as (Hinv2 & Hleft2 & _).
  apply list_eq_same_length with n;
    [by apply isPermutation_length | by apply isPermutation_length |].
  intros i x y Hi Hx Hy. apply list_lookup_total_correct in Hx, Hy. subst x y.
  rewrite <- (Hleft i Hi) at 1. apply Hleft2.
  by apply (isPermutation_lt n l).
Qed.

(** * Unconstrained mode under draws that never pass 0.4 *)

Section Quiet.
Variable rnd : nat -> Q.
Hypothesis Hquiet : forall k, (rnd k <= 4 # 10)%Q.

Lemma plainCell_quiet col k :
  plainCell rnd col (replicate col false) k = Ok (replicate (col + 1) false, S k).
Proof.
  unfold plainCell. cbv zeta.
  assert (Hprev : truthy (replicate col false !! (col - 1)) = false).
  { destruct (replicate col false !! (col - 1)) as [b |] eqn:Hb; [| done].
    apply lookup_replicate in Hb as [-> _]. done. }
  rewrite Hprev, andb_false_r.
  unfold bind, randomAbove04, bind, random, ret.
  assert (Hle : Qle_bool (rnd k) (4 # 10) = true) by (apply Qle_bool_iff, Hquiet).
  rewrite Hle. simpl.
  by rewrite Nat.add_1_r, replicate_S_end.
Qed.

Lemma plainCells_quiet : forall trips col k,
  forFrom trips col (plainCell rnd) (replicate col false) k
  = Ok (replicate (col + trips) false, k + trips).
Proof.
  induction trips as [| trips IH]; intros col k; simpl.
  - unfold ret. by rewrite !Nat.add_0_r.
  - unfold bind. rewrite plainCell_quiet, IH.
    replace (col + 1 + trips) with (col + Datatypes.S trips) by lia.
    by replace (Datatypes.S k + trips) with (k + Datatypes.S trips) by lia.
Qed.

Lemma plainRow_quiet slots row (g : Grid) k :
  plainRow rnd slots row g k = Ok (g ++ [replicate slots false], k + slots).
Proof.
  unfold plainRow, bind, forRange.
  change (@nil bool) with (replicate 0 false).
  rewrite Nat.sub_0_r, plainCells_quiet. reflexivity.
Qed.

Lemma plainRows_quiet slots : forall rows row (g : Grid) k,
  forFrom rows row (plainRow rnd slots) g k
  = Ok (g ++ replicate rows (replicate slots false), k + rows * slots).
Proof.
  induction rows as [| rows IH]; intros row g k; simpl.
  - unfold ret. by rewrite app_nil_r, Nat.add_0_r.
  - unfold bind. rewrite plainRow_quiet, IH, <- app_assoc. simpl.
    by replace (k + slots + rows * slots) with (k + (slots + rows * slots)) by lia.
Qed.
End Quiet.

(** A grid without rungs leaves every column where it is. *)
Lemma simulatePermutation_no_rung (g : Grid) n :
  (forall r c, cell g r c = false) -> simulatePermutation g n = seq 0 n.
Proof.
  intros Hempty. unfold simulatePermutation.
  rewrite <- (list_fmap_id (seq 0 n)) at 2.
  apply list_fmap_ext. intros j i _. simpl.
  rewrite simulateFrom_simCells. apply simCells_false. auto.
Qed.

(** * The width of the rows *)

(** What a loop that returns has kept true. *)
Lemma forFrom_kept {S : Type} (inv : nat -> S -> Prop) (body : nat -> S -> Rand S) :
  forall trips i s k s' k',
    inv i s ->
    (forall j s k s' k', i <= j < i + trips -> inv j s ->
                         body j s k = Ok (s', k') -> inv (j + 1) s') ->
    forFrom trips i body s k = Ok (s', k') -> inv (i + trips) s'.
Proof.
  induction trips as [| trips IH]; intros i s k s' k' Hinv Hbody; simpl.
  - unfold ret. intros [= <- _]. by rewrite Nat.add_0_r.
  - unfold bind. destruct (body i s k) as [[s1 k1] | e] eqn:Hb; [| discriminate].
    replace (i + Datatypes.S trips) with ((i + 1) + trips) by lia.
    apply IH.
    + apply (Hbody i s k s1 k1); [lia | exact Hinv | exact Hb].
    + intros j s0 k0 s0' k0' Hj. apply Hbody. lia.
Qed.

Lemma forRange_kept {S : Type} (inv : nat -> S -> Prop) (body : nat -> S -> Rand S)
    lo hi s k s' k' :
  lo <= hi ->
  inv lo s ->
  (forall j s k s' k', lo <= j < hi -> inv j s ->
                       body j s k = Ok (s', k') -> inv (j + 1) s') ->
  forRange lo hi body s k = Ok (s', k') -> inv hi s'.
Proof.
  intros Hle Hinv Hbody Hrun. unfold forRange in Hrun.
  replace hi with (lo + (hi - lo)) by lia.
  eapply forFrom_kept; [exact Hinv | | exact Hrun].
  intros j s0 k0 s0' k0' Hj. apply Hbody. lia.
Qed.

(** A rung set inside the row leaves the row as long as it was. *)
Lemma setRung_width w row col (g g' : Grid) :
  col < w -> rowsOfWidth w g -> setRung row col g = Ok g' -> rowsOfWidth w g'.
Proof.
  intros Hcol Hw. unfold setRung.
  destruct (g !! row) as [r |] eqn:Hr; [| discriminate].
  intros [= <-]. apply Forall_insert; [exact Hw |].
  pose proof (Forall_lookup_1 _ _ _ _ Hw Hr) as Hlen. cbv beta in Hlen.
  unfold jsSet. rewrite decide_True by lia. by rewrite length_insert.
Qed.

Lemma emptyGrid_width n rows (g : Grid) :
  emptyGrid n rows = Ok g -> rowsOfWidth (n - 1) g.
Proof.
  unfold emptyGrid. case_decide; [discriminate |]. intros [= <-].
  apply Forall_replicate. apply length_replicate.
Qed.

Section Widths.
Variable rnd : nat -> Q.
Hypothesis Hrnd : rnd_ok rnd.
Variable n : nat.

Lemma chaosCell_width row col (g g' : Grid) k k' :
  col < n - 1 -> rowsOfWidth (n - 1) g ->
  chaosCell rnd row col g k = Ok (g', k') -> rowsOfWidth (n - 1) g'.
Proof.
  intros Hcol Hw. unfold chaosCell, bind.
  destruct ((if decide (0 < col) then lift (getRung g row (col - 1)) else ret false) k)
    as [[prev k1] | e]; [| discriminate].
  destruct prev; [unfold ret; by intros [= <- _] |].
  unfold randomAbove04, bind, random, ret.
  destruct (negb (Qle_bool (rnd k1) (4 # 10))); [| by intros [= <- _]].
  unfold lift. destruct (setRung row col g) as [g1 | e] eqn:Hset; [| discriminate].
  intros [= <- _]. by apply (setRung_width _ row col g).
Qed.

Lemma chaosLoop_width chaosRows (g g' : Grid) k k' :
  rowsOfWidth (n - 1) g ->
  forRange 0 chaosRows (fun row g => forRange 0 (n - 1) (chaosCell rnd row) g) g k
  = Ok (g', k') ->
  rowsOfWidth (n - 1) g'.
Proof.
  intros Hw.
  apply (forRange_kept (fun _ g => rowsOfWidth (n - 1) g)); [lia | exact Hw |].
  intros row g1 k1 g1' k1' _ Hw1.
  apply (forRange_kept (fun _ g => rowsOfWidth (n - 1) g)); [lia | exact Hw1 |].
  intros col g2 k2 g2' k2' Hcol Hw2. apply chaosCell_width; [lia | exact Hw2].
Qed.

Lemma placeCorrections_width rows swaps : forall correctionRow (g : Grid) cr' g',
  Forall (fun s => s + 1 < n) swaps ->
  rowsOfWidth (n - 1) g ->
  placeCorrections rows swaps correctionRow g = Ok (cr', g') ->
  rowsOfWidth (n - 1) g'.
Proof.
  induction swaps as [| s swaps IH]; intros cr g cr' g' Hslots Hw; simpl.
  - by intros [= _ <-].
  - apply Forall_cons in Hslots as [Hs Hslots].
    case_decide; [by intros [= _ <-] |].
    destruct (setRung cr s g) as [g1 | e] eqn:Hset; [| discriminate]. simpl.
    apply IH; [exact Hslots |].
    apply (setRung_width _ cr s g); [lia | exact Hw | exact Hset].
Qed.

Lemma fillerStep_width rows row (g g' : Grid) k k' :
  2 <= n -> rowsOfWidth (n - 1) g ->
  fillerStep rnd n rows row g k = Ok (g', k') -> rowsOfWidth (n - 1) g'.
Proof.
  intros Hn Hw. unfold fillerStep.
  destruct (returns_randomBelow rnd Hrnd (n - 1) k (fun j _ => j < n - 1))
    as (col & k0 & Hdraw & Hcol).
  { intros j Hj. apply Hj. lia. }
  unfold bind at 1. rewrite Hdraw. unfold bind.
  destruct ((if decide (0 < col) then lift (getRung g row (col - 1)) else ret false)
              k0) as [[prev k1] | e]; [| discriminate].
  destruct ((if decide (col < n - 2) then lift (getRung g row (col + 1)) else ret false)
              k1) as [[next k2] | e]; [| discriminate].
  destruct (negb prev && negb next); [| unfold ret; by intros [= <- _]].
  unfold lift. destruct (setRung row col g) as [g1 | e] eqn:Hset; [| discriminate].
  assert (Hw1 : rowsOfWidth (n - 1) g1) by (by apply (setRung_width _ row col g)).
  case_decide; [| unfold ret; by intros [= <- _]].
  destruct (setRung (row + 1) col g1) as [g2 | e] eqn:Hset2; [| discriminate].
  intros [= <- _]. by apply (setRung_width _ (row + 1) col g1).
Qed.

Lemma fillerLoop_width rows : forall fuel row (g g' : Grid) k k',
  2 <= n -> rowsOfWidth (n - 1) g ->
  fillerLoop rnd fuel n rows row g k = Ok (g', k') -> rowsOfWidth (n - 1) g'.
Proof.
  induction fuel as [| fuel IH]; intros row g g' k k' Hn Hw; simpl.
  - unfold ret. by intros [= <- _].
  - case_decide; [| unfold ret; by intros [= <- _]].
    unfold bind.
    destruct (fillerStep rnd n rows row g k) as [[g1 k1] | e] eqn:Hstep;
      [| discriminate].
    apply IH; [exact Hn |]. by apply (fillerStep_width rows row g g1 k k1).
Qed.

(** [permutationToRungs] only sets rungs in slots the rows already have. *)
Lemma permutationToRungs_width targetPerm rows k (g : Grid) k' :
  length targetPerm = n ->
  isPermutation n targetPerm ->
  2 <= n ->
  n * n <= rows ->
  permutationToRungs rnd targetPerm rows k = Ok (g, k') ->
  rowsOfWidth (n - 1) g.
Proof.
  intros Hlen Htarget Hn Hrows. unfold permutationToRungs. rewrite Hlen.
  destruct (chaosRowsOf_room n rows Hrows) as [Hchaos Hroom].
  set (chaosRows := chaosRowsOf n rows) in *.
  destruct (emptyGrid_spec n rows ltac:(lia)) as (g0 & Hg0 & Hlen0 & Hempty0).
  unfold bind at 1. unfold lift at 1. rewrite Hg0.
  unfold bind at 1.
  destruct (forRange 0 chaosRows
              (fun row g => forRange 0 (n - 1) (chaosCell rnd row) g) g0 k)
    as [[g1 k1] | e] eqn:Hrun1; [| discriminate].
  pose proof (chaosLoop_width chaosRows g0 g1 k k1
                (emptyGrid_width n rows g0 Hg0) Hrun1) as Hw1.
  pose proof (returns_det _ _ _ _ _ Hrun1
                (chaosLoop_spec rnd n rows chaosRows g0 k Hchaos Hlen0 Hempty0))
    as (Hlen1 & Hadj1 & Hempty1).
  cbv zeta.
  set (currentPerm := simulatePermutation (take chaosRows g1) n).
  assert (Hcur : isPermutation n currentPerm).
  { apply simulatePermutation_isPermutation. intros r.
    destruct (decide (r < chaosRows)).
    - apply (noAdjacent_ext (cell g1 r)); [| apply Hadj1].
      intros c. symmetry. by apply cell_take.
    - apply noAdjacent_false. intros c. apply cell_take_ge. lia. }
  destruct (inverseOf_spec n currentPerm Hcur) as (Hinv & _).
  destruct (composeCorrection_spec n targetPerm _ Htarget Hinv) as (Hcorr & _).
  destruct (inverseOf_spec n _ Hcorr) as (Hcinv & Hcinv_l & _).
  destruct (correctionSwapsOf_spec n _ Hcinv
              (composeCorrection n targetPerm (inverseOf n currentPerm)))
    as (Hslots & _).
  { intros c Hc. split; [by apply (isPermutation_lt n) | by apply Hcinv_l]. }
  unfold bind at 1. unfold lift at 1.
  destruct (placeCorrections rows _ chaosRows g1) as [[cr g2] | e] eqn:Hplace;
    [| discriminate].
  pose proof (placeCorrections_width rows _ chaosRows g1 cr g2 Hslots Hw1 Hplace)
    as Hw2.
  cbn [fst snd]. by apply fillerLoop_width.
Qed.

(** Unconstrained mode pushes one slot per column pair. *)
Lemma plainRows_width slots rows (g : Grid) k k' :
  forRange 0 rows (plainRow rnd slots) [] k = Ok (g, k') ->
  rowsOfWidth slots g.
Proof.
  apply (forRange_kept (fun _ g => rowsOfWidth slots g)); [lia | constructor |].
  intros row g1 k1 g1' k1' _ Hw1. unfold plainRow, bind.
  destruct (forRange 0 slots (plainCell rnd) [] k1) as [[rowRungs k2] | e] eqn:Hrow;
    [| discriminate].
  unfold ret. intros [= <- _]. apply Forall_app. split; [exact Hw1 |].
  apply Forall_singleton.
  revert Hrow.
  apply (forRange_kept (fun col (r : list bool) => length r = col)); [lia | done |].
  intros col r k3 r' k3' _ Hr. unfold plainCell. cbv zeta.
  destruct (bool_decide (0 < col) && truthy (r !! (col - 1))).
  - unfold ret. intros [= <- _]. rewrite length_app. simpl. lia.
  - unfold bind, randomAbove04, bind, random, ret. intros [= <- _].
    rewrite length_app. simpl. lia.
Qed.

Lemma generateLadder_width excl k ladder k' :
  2 <= n ->
  generateLadder rnd {| playerCount := Z.of_nat n; excludeSelf := excl |} k
  = Ok (ladder, k') ->
  rowsOfWidth (n - 1) (rungs ladder).
Proof.
  intros Hn. unfold generateLadder. simpl. destruct excl.
  - rewrite Nat2Z.id. unfold bind at 1.
    destruct (generateDerangement rnd n k) as [[target k1] | e] eqn:Hgen;
      [| discriminate].
    pose proof (returns_det _ _ _ _ _ Hgen
                  (generateDerangement_cycle rnd Hrnd n k ltac:(lia)))
      as (Hperm & _).
    unfold bind at 1.
    destruct (permutationToRungs rnd target _ k1) as [[g k2] | e] eqn:Hrun;
      [| discriminate].
    unfold ret. intros [= <- _]. simpl.
    apply (permutationToRungs_width target (rowCountOf (Z.of_nat n) true) k1 g k2);
      [by apply isPermutation_length | exact Hperm | exact Hn | | exact Hrun].
    unfold rowCountOf. nia.
  - unfold bind at 1.
    destruct (forRange 0 _ (plainRow rnd (Z.to_nat (Z.of_nat n - 1))) [] k)
      as [[g k2] | e] eqn:Hrun; [| discriminate].
    unfold ret. intros [= <- _]. simpl.
    replace (n - 1) with (Z.to_nat (Z.of_nat n - 1)) by lia.
    exact (plainRows_width _ _ g k k2 Hrun).
Qed.
End Widths.

(** * Too few rows *)

(** The correction loop on any number of rows: it stops at the last row,
    and each row it wrote holds one rung. *)
Lemma placeCorrections_any rows swaps : forall correctionRow (g : Grid),
  length g = rows ->
  correctionRow <= rows ->
  (forall r c, correctionRow <= r -> cell g r c = false) ->
  exists cr' g',
    placeCorrections rows swaps correctionRow g = Ok (cr', g')
    /\ correctionRow <= cr' <= rows
    /\ cr' <= correctionRow + length swaps
    /\ length g' = rows
    /\ (forall r c, r < correctionRow -> cell g' r c = cell g r c)
    /\ (forall r, correctionRow <= r -> noAdjacent (cell g' r))
    /\ (forall r c, cr' <= r -> cell g' r c = false).
Proof.
  induction swaps as [| s swaps IH]; intros cr g Hlen Hle Hempty; simpl.
  - exists cr, g. split_and!; auto; try lia.
    intros r Hr. apply noAdjacent_false. auto.
  - case_decide as Hfull.
    + exists cr, g. split_and!; auto; try lia.
      intros r Hr. apply noAdjacent_false. auto.
    + destruct (setRung_spec g cr s) as (g1 & -> & Hlen1 & Hcell1); [lia |].
      simpl.
      destruct (IH (cr + 1) g1) as (cr' & g' & Hrun & Hcr & Hmax & Hlen' & Habove & Hadj & Hbelow).
      { lia. }
      { lia. }
      { intros r c Hr. rewrite Hcell1, decide_False by lia. apply Hempty. lia. }
      exists cr', g'. split_and!; [exact Hrun | lia | lia | lia | exact Hlen' | | | exact Hbelow].
      * intros r c Hr. rewrite Habove by lia. rewrite Hcell1.
        by rewrite decide_False by lia.
      * intros r Hr. destruct (decide (r = cr)) as [-> | Hne]; [| apply Hadj; lia].
        apply (noAdjacent_single _ s). intros c. rewrite Habove by lia.
        rewrite Hcell1. case_decide; case_bool_decide; try tauto; try done.
        apply Hempty. lia.
Qed.

(** * Further properties of the service *)

(** ** The two shuffles *)

(** X1.  For every [n], zero and one included, and any random draws in
    [0, 1), [generateRandomPermutation n] returns after [n - 1] draws (none
    for [n < 2]) an array that holds each of [0 .. n-1] once. *)
Theorem generateRandomPermutation_permutes (rnd : nat -> Q) (n k : nat) :
  rnd_ok rnd ->
  exists arr,
    generateRandomPermutation rnd n k = Ok (arr, k + (n - 1))
    /\ length arr = n
    /\ arr ≡ₚ seq 0 n.
Proof.
  intros Hrnd. unfold generateRandomPermutation.
  destruct (permutationLoop_spec rnd Hrnd (n - 1) (seq 0 n) k)
    as (arr & k' & Hrun & Hperm & -> & _).
  { rewrite length_seq. lia. }
  exists arr. split_and!; [exact Hrun | | exact Hperm].
  by rewrite Hperm, length_seq.
Qed.

Lemma generateRandomPermutation_permutes_witness :
  rnd_ok rndDemo
  /\ exists arr,
       generateRandomPermutation rndDemo 5 0 = Ok (arr, 0 + (5 - 1))
       /\ length arr = 5
       /\ arr ≡ₚ seq 0 5.
Proof.
  split; [exact rndDemo_ok |].
  apply (generateRandomPermutation_permutes rndDemo 5 0). exact rndDemo_ok.
Defined.

(** X2.  [generateRandomPermutation] can return every arrangement of
    [0 .. n-1], the identity included: for each there are draws in [0, 1)
    that produce it. *)
Theorem generateRandomPermutation_reaches_all (n : nat) (target : list nat) (k : nat) :
  target ≡ₚ seq 0 n ->
  exists rnd,
    rnd_ok rnd
    /\ generateRandomPermutation rnd n k = Ok (target, k + (n - 1)).
Proof.
  intros Hperm. pose proof (Permutation_length Hperm) as Hlen.
  rewrite length_seq in Hlen.
  destruct n as [| m].
  - apply Permutation_nil_r in Hperm. subst target.
    exists (fun _ => 0%Q). split; [intros i; split; [apply Qle_refl | reflexivity] |].
    unfold generateRandomPermutation. simpl. unfold ret. do 2 f_equal. lia.
  - unfold generateRandomPermutation. replace (S m - 1) with m by lia.
    apply permutationLoop_reaches.
    + rewrite length_seq. lia.
    + by rewrite length_seq.
    + rewrite !take_ge by (rewrite ?length_seq; lia). exact Hperm.
    + intros x Hx. rewrite !list_lookup_total_alt.
      by rewrite !lookup_ge_None_2 by (rewrite ?length_seq; lia).
Qed.

Lemma generateRandomPermutation_reaches_all_witness :
  [0; 1; 2] ≡ₚ seq 0 3
  /\ exists rnd,
       rnd_ok rnd
       /\ generateRandomPermutation rnd 3 0 = Ok ([0; 1; 2], 0 + (3 - 1)).
Proof.
  split; [reflexivity |].
  apply (generateRandomPermutation_reaches_all 3 [0; 1; 2] 0). reflexivity.
Defined.

(** X3.  [generateDerangement] can return every permutation of [0 .. n-1]
    that is a single cycle of length [n]: for each there are draws in [0, 1)
    that produce it. *)
Theorem generateDerangement_reaches_every_cycle (n : nat) (target : list nat) (k : nat) :
  singleCycle n target ->
  exists rnd,
    rnd_ok rnd
    /\ generateDerangement rnd n k = Ok (target, k + (n - 1)).
Proof.
  intros Hcycle. pose proof Hcycle as [Hperm _].
  pose proof (isPermutation_length n target Hperm) as Hlen.
  destruct (decide (n = 0)) as [-> | Hn].
  - apply Permutation_nil_r in Hperm. subst target.
    exists (fun _ => 0%Q). split; [intros i; split; [apply Qle_refl | reflexivity] |].
    unfold generateDerangement. simpl. unfold ret. do 2 f_equal. lia.
  - destruct (singleCycle_chain n target ltac:(lia) Hcycle) as (l & Hseq & Hc).
    unfold generateDerangement.
    apply (derangementLoop_reaches (n - 1) (seq 0 n) target k
             (fun x => if decide (x < n) then target !!! x else x) 0 l).
    + rewrite length_seq. lia.
    + by rewrite length_seq.
    + intros x Hx. rewrite length_seq in Hx. rewrite decide_True by exact Hx.
      rewrite lookup_total_seq_lt; [done |]. by apply (isPermutation_lt n).
    + intros x Hx. rewrite decide_False by lia. done.
    + by replace (S (n - 1)) with n by lia.
    + apply (chain_ext (fun x => target !!! x)); [| exact Hc].
      intros x Hx. rewrite Hseq in Hx. apply elem_of_seq in Hx.
      rewrite decide_True by lia. done.
Qed.

Lemma generateDerangement_reaches_every_cycle_witness :
  singleCycle 4 [2; 3; 1; 0]
  /\ exists rnd,
       rnd_ok rnd
       /\ generateDerangement rnd 4 0 = Ok ([2; 3; 1; 0], 0 + (4 - 1)).
Proof.
  assert (H : singleCycle 4 [2; 3; 1; 0]).
  { split; unfold isPermutation; simpl; solve_Permutation. }
  split; [exact H |].
  apply (generateDerangement_reaches_every_cycle 4 [2; 3; 1; 0] 0). exact H.
Defined.

(** X4.  Below two elements the loop of [generateDerangement] has no trip:
    the identity array comes back, nothing is drawn and nothing is thrown;
    for [n = 1] it is [[0]], which [isValidDerangement] rejects. *)
Theorem generateDerangement_below_two (rnd : nat -> Q) (n k : nat) :
  n <= 1 ->
  generateDerangement rnd n k = Ok (seq 0 n, k)
  /\ isValidDerangement (seq 0 n) = bool_decide (n = 0).
Proof.
  intros Hn. destruct n as [| [| n]]; [split; reflexivity .. | lia].
Qed.

Lemma generateDerangement_below_two_witness :
  1 <= 1
  /\ generateDerangement rndDemo 1 0 = Ok (seq 0 1, 0)
  /\ isValidDerangement (seq 0 1) = bool_decide (1 = 0).
Proof.
  split; [lia |]. apply (generateDerangement_below_two rndDemo 1 0). lia.
Defined.

(** X5.  With both slots inside the array, [swapAdjacent] exchanges the
    elements at [pos] and [pos + 1] and touches nothing else: the array read
    at [x] holds what was at [transp pos x], it keeps its length and its
    elements, and swapping again restores it. *)
Theorem swapAdjacent_exchanges (perm : list nat) (pos : nat) :
  pos + 1 < length perm ->
  length (swapAdjacent perm pos) = length perm
  /\ swapAdjacent perm pos ≡ₚ perm
  /\ (forall x, swapAdjacent perm pos !!! x = perm !!! transp pos x)
  /\ swapAdjacent (swapAdjacent perm pos) pos = perm.
Proof.
  intros Hpos. unfold swapAdjacent.
  assert (Hidx : forall x, swapIdx pos (pos + 1) x = transp pos x).
  { intros x. unfold swapIdx, transp. repeat case_decide; lia. }
  split_and!.
  - apply swapAt_length.
  - apply swapAt_Permutation; lia.
  - intros x. rewrite swapAt_lookup by lia. by rewrite Hidx.
  - apply list_eq_same_length with (length perm);
      [done | by rewrite !swapAt_length |].
    intros x a b Hx Ha Hb. apply list_lookup_total_correct in Ha, Hb. subst a b.
    rewrite !swapAt_lookup by (rewrite ?swapAt_length; lia).
    by rewrite swapIdx_invol.
Qed.

Lemma swapAdjacent_exchanges_witness :
  1 + 1 < length [5; 6; 7; 8]
  /\ swapAdjacent [5; 6; 7; 8] 1 = [5; 7; 6; 8]
  /\ swapAdjacent (swapAdjacent [5; 6; 7; 8] 1) 1 = [5; 6; 7; 8].
Proof.
  split; [simpl; lia |]. split; [reflexivity |].
  apply (swapAdjacent_exchanges [5; 6; 7; 8] 1). simpl. lia.
Defined.

(** ** The simulator *)

(** X6.  On any grid, rows of any length and adjacent rungs included,
    [simulatePermutation rungs n] returns [n] columns, each below [n]. *)
Theorem simulatePermutation_in_range (g : Grid) (n : nat) :
  length (simulatePermutation g n) = n
  /\ Forall (fun col => col < n) (simulatePermutation g n).
Proof.
  split; [apply simulatePermutation_length |].
  unfold simulatePermutation. apply Forall_fmap, Forall_forall.
  intros i Hi. apply elem_of_seq in Hi. simpl. apply simulateFrom_lt. lia.
Qed.

(** X7.  On every grid that [hasNoAdjacentRungs] accepts, whatever the
    length of its rows, [simulatePermutation] returns each of [0 .. n-1]
    once: no two columns end in the same place. *)
Theorem simulatePermutation_bijective (g : Grid) (n : nat) :
  hasNoAdjacentRungs g = true ->
  simulatePermutation g n ≡ₚ seq 0 n.
Proof.
  intros Hadj. apply simulatePermutation_isPermutation.
  by apply hasNoAdjacentRungs_spec.
Qed.

Lemma simulatePermutation_bijective_witness :
  hasNoAdjacentRungs [[true; false; true]; [false; true]; []; [true]] = true
  /\ simulatePermutation [[true; false; true]; [false; true]; []; [true]] 4
     ≡ₚ seq 0 4.
Proof.
  split; [reflexivity |].
  apply (simulatePermutation_bijective [[true; false; true]; [false; true]; []; [true]] 4).
  reflexivity.
Defined.

(** X8.  Walking a grid set on top of another is walking the upper one and
    then the lower one from where the upper one ends. *)
Theorem simulatePermutation_composes (g1 g2 : Grid) (n : nat) :
  simulatePermutation (g1 ++ g2) n
  = (fun col => simulatePermutation g2 n !!! col) <$> simulatePermutation g1 n.
Proof.
  unfold simulatePermutation at 1 3. rewrite <- list_fmap_compose.
  apply list_fmap_ext. intros j i Hi. apply lookup_seq in Hi as [-> Hi]. simpl.
  rewrite simulateFrom_app. symmetry. apply simulatePermutation_at.
  by apply simulateFrom_lt.
Qed.

(** X9.  On a grid that [hasNoAdjacentRungs] accepts, the rows taken in
    reverse order lead every column back: the upside-down ladder performs
    the inverse permutation. *)
Theorem simulatePermutation_upside_down (g : Grid) (n i : nat) :
  hasNoAdjacentRungs g = true ->
  i < n ->
  simulatePermutation (reverse g) n !!! (simulatePermutation g n !!! i) = i.
Proof.
  intros Hadj Hi. apply hasNoAdjacentRungs_rows in Hadj.
  rewrite (simulatePermutation_at g n i Hi).
  rewrite simulatePermutation_at by (by apply simulateFrom_lt).
  by apply simulateFrom_reverse.
Qed.

Lemma simulatePermutation_upside_down_witness :
  hasNoAdjacentRungs [[true; false; false]; [false; true; false]; [false; false; true]]
  = true
  /\ 0 < 4
  /\ simulatePermutation [[true; false; false]; [false; true; false];
                          [false; false; true]] 4 !!! 0 = 3
  /\ simulatePermutation
       (reverse [[true; false; false]; [false; true; false]; [false; false; true]]) 4
     !!! (simulatePermutation [[true; false; false]; [false; true; false];
                               [false; false; true]] 4 !!! 0) = 0.
Proof.
  split; [reflexivity |]. split; [lia |]. split; [reflexivity |].
  apply (simulatePermutation_upside_down
           [[true; false; false]; [false; true; false]; [false; false; true]] 4 0);
    [reflexivity | lia].
Defined.

(** ** The tracer *)

(** X10.  On a ladder whose grid has its [rowCount] rows, in any geometry
    and from any start column below [playerCount], [traceLadderPath] returns,
    and its [finalColumn] is below [playerCount]: it is the entry of
    [simulatePermutation] on the first [rowCount] rows for the start
    column. *)
Theorem traceLadderPath_exit_in_range (cellWidth cellHeight startY : float) (g : Grid)
    (rows startCol playerCount : nat) :
  rows <= length g ->
  startCol < playerCount ->
  exists trace,
    traceLadderPath cellWidth cellHeight startY {| rungs := g; rowCount := rows |}
      startCol playerCount = Ok trace
    /\ finalColumn trace < playerCount
    /\ finalColumn trace = simulatePermutation (take rows g) playerCount !!! startCol.
Proof.
  intros Hrows Hstart.
  destruct (traceLadderPath_shape cellWidth cellHeight startY g playerCount
              startCol rows Hrows) as (trace & Hrun & Hfinal & _).
  exists trace. split_and!; [exact Hrun | |].
  - rewrite Hfinal. by apply simCells_lt.
  - rewrite Hfinal, simulatePermutation_at by exact Hstart.
    by rewrite simulateFrom_take.
Qed.

Lemma traceLadderPath_exit_in_range_witness :
  2 <= length [[true; false]; [false; true]; [true; false]]
  /\ 0 < 3
  /\ exists trace,
       traceLadderPath 100 50 80
         {| rungs := [[true; false]; [false; true]; [true; false]]; rowCount := 2 |}
         0 3 = Ok trace
       /\ finalColumn trace < 3
       /\ finalColumn trace
          = simulatePermutation (take 2 [[true; false]; [false; true]; [true; false]]) 3
            !!! 0.
Proof.
  split; [simpl; lia |]. split; [lia |].
  apply (traceLadderPath_exit_in_range 100 50 80
           [[true; false]; [false; true]; [true; false]] 2 0 3); [simpl; lia | lia].
Defined.

(** X11.  Whether [traceLadderPath] returns or throws, and the [finalColumn]
    it returns, do not depend on [cellWidth], [cellHeight] and [startY]; this
    holds for every ladder, start column and player count. *)
Theorem traceLadderPath_exit_any_geometry (cellWidth cellHeight startY : float)
    (cellWidth' cellHeight' startY' : float) (ladder : LadderData)
    (startCol playerCount : nat) :
  (let? trace := traceLadderPath cellWidth cellHeight startY ladder startCol playerCount
   in Ok (finalColumn trace))
  = (let? trace := traceLadderPath cellWidth' cellHeight' startY' ladder startCol
                     playerCount
     in Ok (finalColumn trace)).
Proof. apply traceLadderPath_column. Qed.

(** X12.  When [rowCount] is more than the rows the grid has, and there are
    two or more columns, [traceLadderPath] throws a [TypeError] on the first
    missing row ([rungs[row]] is [undefined]), from every start column. *)
Theorem traceLadderPath_missing_row (cellWidth cellHeight startY : float) (g : Grid)
    (rows startCol playerCount : nat) :
  length g < rows ->
  2 <= playerCount ->
  traceLadderPath cellWidth cellHeight startY {| rungs := g; rowCount := rows |}
    startCol playerCount = Throw TypeError.
Proof. intros Hrows Hpc. by apply traceLadderPath_missing. Qed.

Lemma traceLadderPath_missing_row_witness :
  length [[true; false]; [false; true]] < 3
  /\ 2 <= 3
  /\ traceLadderPath 100 50 80
       {| rungs := [[true; false]; [false; true]]; rowCount := 3 |} 1 3
     = Throw TypeError.
Proof.
  split; [simpl; lia |]. split; [lia |].
  apply (traceLadderPath_missing_row 100 50 80 [[true; false]; [false; true]] 3 1 3);
    [simpl; lia | lia].
Defined.

(** X13.  On a ladder whose grid has its [rowCount] rows the path has the
    start point, one or two way points per row and the end point: between
    [rowCount + 2] and [2 * rowCount + 2] way points. *)
Theorem traceLadderPath_path_length (cellWidth cellHeight startY : float) (g : Grid)
    (rows startCol playerCount : nat) :
  rows <= length g ->
  exists trace,
    traceLadderPath cellWidth cellHeight startY {| rungs := g; rowCount := rows |}
      startCol playerCount = Ok trace
    /\ rows + 2 <= length (path trace) <= 2 * rows + 2.
Proof.
  intros Hrows.
  destruct (traceLadderPath_shape cellWidth cellHeight startY g playerCount
              startCol rows Hrows) as (trace & Hrun & _ & Hcount & _).
  exists trace. split; [exact Hrun | exact Hcount].
Qed.

Lemma traceLadderPath_path_length_witness :
  3 <= length [[true; false]; [false; false]; [false; true]]
  /\ exists trace,
       traceLadderPath 100 50 80
         {| rungs := [[true; false]; [false; false]; [false; true]]; rowCount := 3 |}
         0 3 = Ok trace
       /\ 3 + 2 <= length (path trace) <= 2 * 3 + 2.
Proof.
  split; [simpl; lia |].
  apply (traceLadderPath_path_length 100 50 80
           [[true; false]; [false; false]; [false; true]] 3 0 3). simpl. lia.
Defined.

(** X14.  On a ladder whose grid has its [rowCount] rows, from a start
    column below [playerCount], every way point of the path lies on the line
    of a column below [playerCount], at the height [startY], at the height of
    one of the [rowCount] rows, or at the final height
    [rowCount * cellHeight + startY]. *)
Theorem traceLadderPath_on_the_board (cellWidth cellHeight startY : float) (g : Grid)
    (rows startCol playerCount : nat) :
  rows <= length g ->
  startCol < playerCount ->
  exists trace,
    traceLadderPath cellWidth cellHeight startY {| rungs := g; rowCount := rows |}
      startCol playerCount = Ok trace
    /\ Forall (fun p =>
         exists col, col < playerCount
           /\ PathPoint.x p = getX cellWidth col
           /\ (PathPoint.y p = startY
               \/ (exists row, row < rows /\ PathPoint.y p = getY cellHeight startY row)
               \/ PathPoint.y p
                  = (numberOf rows * cellHeight + startY)%float))
         (path trace).
Proof.
  intros Hrows Hstart.
  destruct (traceLadderPath_shape cellWidth cellHeight startY g playerCount
              startCol rows Hrows) as (trace & Hrun & _ & _ & Hon).
  exists trace. split; [exact Hrun | exact (Hon Hstart)].
Qed.

Lemma traceLadderPath_on_the_board_witness :
  2 <= length [[true; false]; [false; true]]
  /\ 0 < 3
  /\ exists trace,
       traceLadderPath 100 50 80
         {| rungs := [[true; false]; [false; true]]; rowCount := 2 |} 0 3 = Ok trace
       /\ Forall (fun p =>
            exists col, col < 3
              /\ PathPoint.x p = getX 100 col
              /\ (PathPoint.y p = 80%float
                  \/ (exists row, row < 2 /\ PathPoint.y p = getY 50 80 row)
                  \/ PathPoint.y p = (numberOf 2 * 50 + 80)%float))
            (path trace).
Proof.
  split; [simpl; lia |]. split; [lia |].
  apply (traceLadderPath_on_the_board 100 50 80 [[true; false]; [false; true]] 2 0 3);
    [simpl; lia | lia].
Defined.

(** ** All columns *)

(** X15.  On a ladder whose grid has its [rowCount] rows, its own rows of any
    length and adjacent rungs included, [computeAllResults] returns what
    [simulatePermutation] returns on the first [rowCount] rows: the tracer
    and the simulator agree. *)
Theorem computeAllResults_is_simulation (g : Grid) (rows n : nat) :
  rows <= length g ->
  computeAllResults {| rungs := g; rowCount := rows |} n
  = Ok (simulatePermutation (take rows g) n).
Proof.
  intros Hrows. unfold computeAllResults.
  destruct (forFromO_inv
              (fun i (results : list nat) =>
                 results = fmap (M:=list) (simulateFrom (take rows g) n) (seq 0 i))
              (fun i (results : list nat) =>
                 obind (traceLadderPath 1 1 0
                          {| rungs := g; rowCount := rows |} i n)
                       (fun trace => Ok (results ++ [finalColumn trace])))
              n 0 [] eq_refl) as (results & -> & ->); [| reflexivity].
  intros i results _ ->.
  destruct (traceLadderPath_shape 1 1 0 g n i rows Hrows)
    as (trace & -> & Hfinal & _).
  simpl. eexists. split; [reflexivity |].
  replace (i + 1) with (S i) by lia.
  rewrite seq_S, fmap_app, Hfinal. simpl.
  by rewrite simulateFrom_take.
Qed.

Lemma computeAllResults_is_simulation_witness :
  2 <= length [[true; true]; [false; true]; [true; false]]
  /\ computeAllResults
       {| rungs := [[true; true]; [false; true]; [true; false]]; rowCount := 2 |} 3
     = Ok (simulatePermutation (take 2 [[true; true]; [false; true]; [true; false]]) 3).
Proof.
  split; [simpl; lia |].
  apply (computeAllResults_is_simulation
           [[true; true]; [false; true]; [true; false]] 2 3).
  simpl. lia.
Defined.

(** X16.  Whenever [computeAllResults] returns, it returns one entry per
    column, and entry [i] is the [finalColumn] of [traceLadderPath] from
    column [i] in whatever geometry the path is drawn. *)
Theorem computeAllResults_exits_of_traces (cw ch sy : float)
    (ladder : LadderData) (n : nat) (results : list nat) :
  computeAllResults ladder n = Ok results ->
  length results = n
  /\ forall i, i < n ->
       exists trace,
         traceLadderPath cw ch sy ladder i n = Ok trace
         /\ finalColumn trace = results !!! i.
Proof.
  unfold computeAllResults. intros Hrun.
  replace n with (0 + n) at 1 2 by lia.
  revert Hrun.
  apply (forFromO_kept
           (fun j (res : list nat) =>
              length res = j
              /\ forall i, i < j ->
                   exists trace, traceLadderPath cw ch sy ladder i n = Ok trace
                                 /\ finalColumn trace = res !!! i)).
  - split; [done | lia].
  - intros j res res' _ [Hlen Hres] Hbody.
    pose proof (traceLadderPath_column cw ch sy 1 1 0 ladder j n) as Hcol.
    destruct (traceLadderPath 1 1 0 ladder j n) as [t1 | e]; simpl in *;
      [| discriminate].
    injection Hbody as <-.
    destruct (traceLadderPath cw ch sy ladder j n) as [t | e] eqn:Ht; simpl in Hcol;
      [| discriminate].
    injection Hcol as Hcol.
    split; [rewrite length_app; simpl; lia |].
    intros i Hi. destruct (decide (i = j)) as [-> | Hne].
    + exists t. split; [done |].
      rewrite lookup_total_app_r by lia.
      replace (j - length res) with 0 by lia. done.
    + destruct (Hres i) as (t' & Ht' & Hf); [lia |].
      exists t'. split; [done |]. rewrite lookup_total_app_l by lia. done.
Qed.

Lemma computeAllResults_exits_of_traces_witness :
  computeAllResults {| rungs := [[true; false]; [false; true]]; rowCount := 2 |} 3
  = Ok [2; 0; 1]
  /\ length [2; 0; 1] = 3
  /\ forall i, i < 3 ->
       exists trace,
         traceLadderPath 100 50 80
           {| rungs := [[true; false]; [false; true]]; rowCount := 2 |} i 3 = Ok trace
         /\ finalColumn trace = [2; 0; 1] !!! i.
Proof.
  split; [reflexivity |].
  apply (computeAllResults_exits_of_traces 100 50 80
           {| rungs := [[true; false]; [false; true]]; rowCount := 2 |} 3 [2; 0; 1]).
  reflexivity.
Defined.

(** X17.  When [rowCount] is more than the rows the grid has,
    [computeAllResults] throws a [TypeError] for two or more columns; for one
    column or none it reads no rung and returns [[0]] or [[]]. *)
Theorem computeAllResults_missing_row (g : Grid) (rows n : nat) :
  length g < rows ->
  computeAllResults {| rungs := g; rowCount := rows |} n
  = if decide (2 <= n) then Throw TypeError else Ok (seq 0 n).
Proof.
  intros Hrows. unfold computeAllResults. case_decide as Hn.
  - destruct n as [| n]; [lia |]. simpl.
    by rewrite traceLadderPath_missing.
  - destruct n as [| [| n]]; [done | | lia]. simpl.
    destruct (traceLadderPath_alone 1 1 0 g 1 rows (le_n _)) as (trace & Ht & Hf).
    rewrite Ht. simpl. by rewrite Hf.
Qed.

Lemma computeAllResults_missing_row_witness :
  length [[true; false]] < 2
  /\ computeAllResults {| rungs := [[true; false]]; rowCount := 2 |} 3
     = Throw TypeError.
Proof.
  split; [simpl; lia |].
  apply (computeAllResults_missing_row [[true; false]] 2 3). simpl. lia.
Defined.

(** ** Building the grid *)

(** X18.  For every permutation [targetPerm] of [0 .. n-1] with [n >= 1],
    the identity included, every [rowCount >= n * n] and any random draws,
    [permutationToRungs] returns a grid of [rowCount] rows that
    [hasNoAdjacentRungs] accepts and on which both [simulatePermutation] and
    [computeAllResults] give back [targetPerm]. *)
Theorem permutationToRungs_any_permutation (rnd : nat -> Q) (targetPerm : list nat)
    (rows k : nat) :
  targetPerm ≡ₚ seq 0 (length targetPerm) ->
  1 <= length targetPerm ->
  length targetPerm * length targetPerm <= rows ->
  exists g k',
    permutationToRungs rnd targetPerm rows k = Ok (g, k')
    /\ length g = rows
    /\ hasNoAdjacentRungs g = true
    /\ simulatePermutation g (length targetPerm) = targetPerm
    /\ computeAllResults {| rungs := g; rowCount := rows |} (length targetPerm)
       = Ok targetPerm.
Proof.
  intros Hperm Hn Hrows.
  destruct (permutationToRungs_spec rnd targetPerm rows k Hperm Hn Hrows)
    as (g & k' & Hrun & Hlen & Hadj & Hsim).
  exists g, k'. split_and!; [exact Hrun | exact Hlen | | exact Hsim |].
  - by apply hasNoAdjacentRungs_spec.
  - rewrite computeAllResults_spec by (simpl; congruence). simpl. by rewrite Hsim.
Qed.

Lemma permutationToRungs_any_permutation_witness :
  [0; 2; 1] ≡ₚ seq 0 (length [0; 2; 1])
  /\ 1 <= length [0; 2; 1]
  /\ length [0; 2; 1] * length [0; 2; 1] <= 9
  /\ exists g k',
       permutationToRungs rndDemo [0; 2; 1] 9 0 = Ok (g, k')
       /\ length g = 9
       /\ hasNoAdjacentRungs g = true
       /\ simulatePermutation g (length [0; 2; 1]) = [0; 2; 1]
       /\ computeAllResults {| rungs := g; rowCount := 9 |} (length [0; 2; 1])
          = Ok [0; 2; 1].
Proof.
  assert (H : [0; 2; 1] ≡ₚ seq 0 (length [0; 2; 1])) by (simpl; solve_Permutation).
  split; [exact H |].
  split; [simpl; lia |]. split; [simpl; lia |].
  apply (permutationToRungs_any_permutation rndDemo [0; 2; 1] 9 0);
    [exact H | simpl; lia | simpl; lia].
Defined.

(** X19.  For a permutation [correctionInverse] of [0 .. n-1] the selection
    loop records at most [n (n - 1) / 2] swaps, the [maxCorrectionSwaps] the
    rows are reserved for; each is a slot of the grid, and as rungs from the
    top they carry every column [c] to the index at which
    [correctionInverse] holds [c]. *)
Theorem correctionSwaps_bounded (n : nat) (correctionInverse : list nat) :
  correctionInverse ≡ₚ seq 0 n ->
  length (correctionSwapsOf n correctionInverse) <= n * (n - 1) / 2
  /\ Forall (fun s => s + 1 < n) (correctionSwapsOf n correctionInverse)
  /\ forall c, c < n ->
       applySwaps (correctionSwapsOf n correctionInverse) c < n
       /\ correctionInverse !!! applySwaps (correctionSwapsOf n correctionInverse) c = c.
Proof.
  intros Hperm.
  destruct (inverseOf_spec n correctionInverse Hperm) as (Hinv & _ & Hright).
  destruct (correctionSwapsOf_spec n correctionInverse Hperm
              (inverseOf n correctionInverse)) as (Hslots & Hcount & Hswaps).
  { intros c Hc. split; [by apply (isPermutation_lt n) | by apply Hright]. }
  split_and!; [exact Hcount | exact Hslots |].
  intros c Hc. rewrite Hswaps by exact Hc.
  split; [by apply (isPermutation_lt n) | by apply Hright].
Qed.

Lemma correctionSwaps_bounded_witness :
  [2; 0; 1] ≡ₚ seq 0 3
  /\ correctionSwapsOf 3 [2; 0; 1] = [1; 0]
  /\ length (correctionSwapsOf 3 [2; 0; 1]) <= 3 * (3 - 1) / 2
  /\ Forall (fun s => s + 1 < 3) (correctionSwapsOf 3 [2; 0; 1]).
Proof.
  assert (H : [2; 0; 1] ≡ₚ seq 0 3) by (simpl; solve_Permutation).
  split; [exact H |]. split; [reflexivity |].
  destruct (correctionSwaps_bounded 3 [2; 0; 1] H) as (Hcount & Hslots & _).
  split; [exact Hcount | exact Hslots].
Defined.

(** X20.  On a permutation of [0 .. n-1] the loop
    [inverse[perm[i]] = i] builds the two-sided inverse, and run on its own
    result it gives the permutation back. *)
Theorem inverseOf_round_trip (n : nat) (perm : list nat) :
  perm ≡ₚ seq 0 n ->
  inverseOf n perm ≡ₚ seq 0 n
  /\ (forall i, i < n -> inverseOf n perm !!! (perm !!! i) = i)
  /\ (forall v, v < n -> perm !!! (inverseOf n perm !!! v) = v)
  /\ inverseOf n (inverseOf n perm) = perm.
Proof.
  intros Hperm. destruct (inverseOf_spec n perm Hperm) as (Hinv & Hleft & Hright).
  split_and!; [exact Hinv | exact Hleft | exact Hright |].
  by apply inverseOf_inverseOf.
Qed.

Lemma inverseOf_round_trip_witness :
  [2; 0; 3; 1] ≡ₚ seq 0 4
  /\ inverseOf 4 [2; 0; 3; 1] = [1; 3; 0; 2]
  /\ inverseOf 4 (inverseOf 4 [2; 0; 3; 1]) = [2; 0; 3; 1].
Proof.
  assert (H : [2; 0; 3; 1] ≡ₚ seq 0 4) by (simpl; solve_Permutation).
  split; [exact H |]. split; [reflexivity |].
  apply (inverseOf_round_trip 4 [2; 0; 3; 1] H).
Defined.

(** ** The dimensions of a generated ladder *)

(** X21.  For two or more players, either mode and any random draws in
    [0, 1), the grid [generateLadder] returns has [rowCount] rows of
    [playerCount - 1] slots each: no rung is ever set outside a row. *)
Theorem generateLadder_dimensions (rnd : nat -> Q) (n : nat) (excl : bool) (k : nat) :
  rnd_ok rnd ->
  2 <= n ->
  exists ladder k',
    generateLadder rnd {| playerCount := Z.of_nat n; excludeSelf := excl |} k
    = Ok (ladder, k')
    /\ length (rungs ladder) = rowCount ladder
    /\ Forall (fun row => length row = n - 1) (rungs ladder).
Proof.
  intros Hrnd Hn.
  destruct (generateLadder_spec rnd Hrnd n excl k ltac:(lia))
    as (ladder & k' & Hrun & _ & Hlen & _).
  exists ladder, k'. split_and!; [exact Hrun | exact Hlen |].
  exact (generateLadder_width rnd Hrnd n excl k ladder k' Hn Hrun).
Qed.

Lemma generateLadder_dimensions_witness :
  rnd_ok rndDemo
  /\ 2 <= 4
  /\ exists ladder k',
       generateLadder rndDemo {| playerCount := Z.of_nat 4; excludeSelf := true |} 0
       = Ok (ladder, k')
       /\ length (rungs ladder) = rowCount ladder
       /\ Forall (fun row => length row = 4 - 1) (rungs ladder).
Proof.
  split; [exact rndDemo_ok |]. split; [lia |].
  apply (generateLadder_dimensions rndDemo 4 true 0); [exact rndDemo_ok | lia].
Defined.

(** ** Unconstrained mode *)

(** X22.  In unconstrained mode, when no draw exceeds 0.4, [generateLadder]
    returns for every player count, after one draw per slot, a grid without
    a single rung, on which every player ends in the column they started
    from: nothing in this mode excludes self-mappings. *)
Theorem generateLadder_plain_can_map_to_self (rnd : nat -> Q) (n k : nat) :
  (forall i, (rnd i <= 4 # 10)%Q) ->
  exists ladder,
    generateLadder rnd {| playerCount := Z.of_nat n; excludeSelf := false |} k
    = Ok (ladder, k + rowCount ladder * (n - 1))
    /\ rungs ladder = replicate (rowCount ladder) (replicate (n - 1) false)
    /\ computeAllResults ladder n = Ok (seq 0 n).
Proof.
  intros Hquiet. unfold generateLadder. simpl.
  unfold bind, forRange. rewrite Nat.sub_0_r.
  rewrite (plainRows_quiet rnd Hquiet). simpl.
  replace (Z.to_nat (Z.of_nat n - 1)) with (n - 1) by lia.
  exists {| rungs := replicate (rowCountOf (Z.of_nat n) false)
                               (replicate (n - 1) false);
            rowCount := rowCountOf (Z.of_nat n) false |}.
  split; [reflexivity |]. simpl. split; [reflexivity |].
  rewrite computeAllResults_spec by (simpl; by rewrite length_replicate).
  simpl. f_equal. apply simulatePermutation_no_rung. intros r c. apply cell_empty.
Qed.

Lemma generateLadder_plain_can_map_to_self_witness :
  (forall i, ((fun _ : nat => 0%Q) i <= 4 # 10)%Q)
  /\ exists ladder,
       generateLadder (fun _ => 0%Q)
         {| playerCount := Z.of_nat 4; excludeSelf := false |} 0
       = Ok (ladder, 0 + rowCount ladder * (4 - 1))
       /\ rungs ladder = replicate (rowCount ladder) (replicate (4 - 1) false)
       /\ computeAllResults ladder 4 = Ok (seq 0 4).
Proof.
  assert (H : forall i : nat, ((fun _ : nat => 0%Q) i <= 4 # 10)%Q).
  { intros i. simpl. unfold Qle. simpl. lia. }
  split; [exact H |].
  apply (generateLadder_plain_can_map_to_self (fun _ => 0%Q) 4 0 H).
Defined.

(** ** Any number of rows *)

(** X23.  For a permutation [targetPerm] of one or more columns, any
    [rowCount], zero and numbers too small for the correction included, and
    any random draws, [permutationToRungs] returns: the correction loop
    stops at the last row instead of writing below the grid.  The grid has
    [rowCount] rows and [hasNoAdjacentRungs] accepts it. *)
Theorem permutationToRungs_any_rowCount (rnd : nat -> Q) (targetPerm : list nat)
    (rows k : nat) :
  targetPerm ≡ₚ seq 0 (length targetPerm) ->
  1 <= length targetPerm ->
  exists g k',
    permutationToRungs rnd targetPerm rows k = Ok (g, k')
    /\ length g = rows
    /\ hasNoAdjacentRungs g = true.
Proof.
  intros Hperm Hn. unfold permutationToRungs.
  set (n := length targetPerm) in *.
  assert (Hchaos : chaosRowsOf n rows <= rows).
  { unfold chaosRowsOf. cbv zeta.
    pose proof (Nat.Div0.div_mod rows 2). pose proof (Nat.mod_upper_bound rows 2). lia. }
  set (chaosRows := chaosRowsOf n rows) in *.
  destruct (emptyGrid_spec n rows Hn) as (g0 & Hg0 & Hlen0 & Hempty0).
  unfold bind at 1. unfold lift at 1. rewrite Hg0.
  destruct (chaosLoop_spec rnd n rows chaosRows g0 k Hchaos Hlen0 Hempty0)
    as (g1 & k1 & Hrun1 & Hlen1 & Hadj1 & Hempty1).
  unfold bind at 1. rewrite Hrun1. cbv zeta.
  destruct (placeCorrections_any rows
              (correctionSwapsOf n
                 (inverseOf n
                    (composeCorrection n targetPerm
                       (inverseOf n (simulatePermutation (take chaosRows g1) n)))))
              chaosRows g1 Hlen1 Hchaos Hempty1)
    as (cr & g2 & Hplace & Hcr & _ & Hlen2 & Hsame2 & Hadj2 & Hempty2).
  unfold bind at 1. unfold lift at 1. rewrite Hplace. cbn [fst snd].
  destruct (fillerLoop_preserves rnd n rows cr g2 k1 Hlen2 ltac:(lia) Hempty2)
    as (g3 & k3 & Hrun3 & Hlen3 & Hsame3 & Hadj3 & _).
  exists g3, k3. split_and!; [exact Hrun3 | exact Hlen3 |].
  apply hasNoAdjacentRungs_spec. intros r.
  destruct (decide (r < cr)) as [Hr | Hr]; [| apply Hadj3; lia].
  apply (noAdjacent_ext (cell g2 r)); [intros c; symmetry; by apply Hsame3 |].
  destruct (decide (r < chaosRows)) as [Hr' | Hr']; [| apply Hadj2; lia].
  apply (noAdjacent_ext (cell g1 r)); [| apply Hadj1].
  intros c. symmetry. by apply Hsame2.
Qed.

Lemma permutationToRungs_any_rowCount_witness :
  [1; 2; 3; 0] ≡ₚ seq 0 (length [1; 2; 3; 0])
  /\ 1 <= length [1; 2; 3; 0]
  /\ exists g k',
       permutationToRungs rndDemo [1; 2; 3; 0] 3 0 = Ok (g, k')
       /\ length g = 3
       /\ hasNoAdjacentRungs g = true.
Proof.
  assert (H : [1; 2; 3; 0] ≡ₚ seq 0 (length [1; 2; 3; 0])) by (simpl; solve_Permutation).
  split; [exact H |]. split; [simpl; lia |].
  apply (permutationToRungs_any_rowCount rndDemo [1; 2; 3; 0] 3 0); [exact H | simpl; lia].
Defined.
